(** * Frequency-domain routines of python_models

    A shallow embedding of the numeric core of the repository:
    [classical_controller.py] (polynomial transfer functions and Bode
    data), [modern_contoller.py] (state-space frequency response and
    output feedback) and [multi_sas_attenuation.py] (closed-form isolator
    responses and their cascades).

    Numeric model.  A finite [float64] is a real number of [R], a finite
    [complex128] a pair of reals; rounding and overflow of the IEEE
    formats are not modelled.  Where numpy divides by an exact zero or
    takes the logarithm of zero it returns an infinity or a NaN without
    raising: such an outcome is [None] in the types [float64] and
    [complex128] below, and it is absorbing for the arithmetic that
    follows, as NaN is.  Python-level exceptions are values of [exn]. *)

From Stdlib Require Import Reals Lra Lia List ZArith Bool Arith Psatz.
From Stdlib Require Import Permutation.
Import ListNotations.
Local Open Scope R_scope.

(* ================================================================== *)
(** ** Complex numbers over the reals *)

Module Cplx.

Definition C : Type := (R * R)%type.

Definition RtoC (x : R) : C := (x, 0).
Definition C0 : C := RtoC 0.
Definition C1 : C := RtoC 1.
(** Python's [1j]. *)
Definition Ci : C := (0, 1).

Definition Cadd (a b : C) : C := (fst a + fst b, snd a + snd b).
Definition Csub (a b : C) : C := (fst a - fst b, snd a - snd b).
Definition Cmul (a b : C) : C :=
  (fst a * fst b - snd a * snd b, fst a * snd b + snd a * fst b).
Definition Cnorm2 (a : C) : R := fst a ^ 2 + snd a ^ 2.
Definition Cinv (a : C) : C := (fst a / Cnorm2 a, - snd a / Cnorm2 a).
Definition Cabs (a : C) : R := sqrt (Cnorm2 a).

Definition Ris_zero (x : R) : bool := if Req_dec_T x 0 then true else false.
Definition Cis_zero (a : C) : bool := Ris_zero (fst a) && Ris_zero (snd a).

Fixpoint Cpow (a : C) (n : nat) : C :=
  match n with
  | O => C1
  | S k => Cmul a (Cpow a k)
  end.

End Cplx.
Import Cplx.

(* ================================================================== *)
(** ** Exceptions and the two effect layers *)

Inductive exn : Type :=
| ValueError          (* numpy / scipy shape complaints *)
| LinAlgError         (* scipy.linalg.inv on a singular matrix *)
| ZeroDivisionError   (* Python float division by zero *)
| IndexError.         (* an index outside an array *)

(** Code that can only raise. *)
Definition result (A : Type) : Type := (exn + A)%type.

Definition rbind {A B} (c : result A) (k : A -> result B) : result B :=
  match c with
  | inl e => inl e
  | inr a => k a
  end.

(** Code that also calls the LAPACK inversion: the state counts the
    factorisations started so far, and it survives an exception. *)
Definition M (A : Type) : Type := nat -> nat * result A.

Definition mret {A} (a : A) : M A := fun n => (n, inr a).
Definition mbind {A B} (c : M A) (k : A -> M B) : M B :=
  fun n => match c n with
           | (n', inl e) => (n', inl e)
           | (n', inr a) => k a n'
           end.
Definition lift {A} (r : result A) : M A := fun n => (n, r).
Definition tick : M unit := fun n => (S n, inr tt).
Definition mraise {A} (e : exn) : M A := fun n => (n, inl e).

Declare Scope np_scope.
Delimit Scope np_scope with np.
Notation "x <- c ;; k" := (mbind c (fun x => k))
  (at level 61, c at next level, right associativity) : np_scope.
Notation "x <~ c ;; k" := (rbind c (fun x => k))
  (at level 61, c at next level, right associativity) : np_scope.

(* ================================================================== *)
(** ** The numpy / scipy primitives the sources call *)

Module np.

(** *** Element values that may be degenerate *)

Definition float64 : Type := option R.
Definition complex128 : Type := option C.

Definition lift1 {A B} (f : A -> B) (x : option A) : option B :=
  match x with Some a => Some (f a) | None => None end.
Definition lift2 {A B D} (f : A -> B -> D) (x : option A) (y : option B)
  : option D :=
  match x, y with Some a, Some b => Some (f a b) | _, _ => None end.

Definition c_add : complex128 -> complex128 -> complex128 := lift2 Cadd.
Definition c_sub : complex128 -> complex128 -> complex128 := lift2 Csub.
Definition c_mul : complex128 -> complex128 -> complex128 := lift2 Cmul.
(** [x / y] on complex operands: inf/NaN when [y] is exactly zero. *)
Definition Cdiv (a b : C) : complex128 :=
  if Cis_zero b then None else Some (Cmul a (Cinv b)).
Definition c_div (x y : complex128) : complex128 :=
  match x, y with Some a, Some b => Cdiv a b | _, _ => None end.
Definition c_abs : complex128 -> float64 := lift1 Cabs.

Definition f_add : float64 -> float64 -> float64 := lift2 Rplus.
Definition f_sub : float64 -> float64 -> float64 := lift2 Rminus.
Definition f_mul : float64 -> float64 -> float64 := lift2 Rmult.
Definition f_div (x y : float64) : float64 :=
  match x, y with
  | Some a, Some b => if Ris_zero b then None else Some (a / b)
  | _, _ => None
  end.

(** [x ** n] for a natural exponent, as a repeated product. *)
Fixpoint c_pow (x : complex128) (n : nat) : complex128 :=
  match n with
  | O => Some C1
  | S k => c_mul x (c_pow x k)
  end.
Fixpoint f_pow (x : float64) (n : nat) : float64 :=
  match n with
  | O => Some 1
  | S k => f_mul x (f_pow x k)
  end.

(** [np.pi]. *)
Definition pi : R := PI.

(** [np.ones_like(w, dtype=complex)] for a 1-D [w]. *)
Definition ones_like {A} (w : list A) : list complex128 :=
  map (fun _ => Some C1) w.

(** Element-wise binary operation on two 1-D arrays of one length. *)
Fixpoint zip_with {A B D} (f : A -> B -> D) (l : list A) (l' : list B)
  : list D :=
  match l, l' with
  | a :: t, b :: t' => f a b :: zip_with f t t'
  | _, _ => []
  end.

(** *** Coefficient types of the 1-D polynomial routines *)

Class Dtype (T : Type) : Type := {
  zero : T;
  one : T;
  add : T -> T -> T;
  mul : T -> T -> T;
  is_zero : T -> bool
}.

(** Two's-complement wrap-around of a 64-bit integer. *)
Definition wrap64 (z : Z) : Z := ((z + 2 ^ 63) mod 2 ^ 64 - 2 ^ 63)%Z.

#[export] Instance dtype_int64 : Dtype Z := {|
  zero := 0%Z;
  one := 1%Z;
  add := fun x y => wrap64 (x + y);
  mul := fun x y => wrap64 (x * y);
  is_zero := fun x => Z.eqb x 0
|}.

#[export] Instance dtype_float64 : Dtype R := {|
  zero := 0;
  one := 1;
  add := Rplus;
  mul := Rmult;
  is_zero := Ris_zero
|}.

(** The algebra a coefficient type offers when its arithmetic is exact. *)
Class DtypeExact (T : Type) `{Dtype T} : Prop := {
  add_zero_l : forall x : T, add zero x = x;
  mul_one_r : forall x : T, mul x one = x;
  one_not_zero : is_zero (one : T) = false;
  zero_is_zero : is_zero (zero : T) = true;
  is_zero_true : forall x : T, is_zero x = true -> x = zero
}.

Section Poly.
Context {T : Type} `{Dtype T}.

(** [np.trim_zeros(filt, trim='f')]: drop the leading zeros. *)
Fixpoint trim_zeros (filt : list T) : list T :=
  match filt with
  | [] => []
  | x :: t => if is_zero x then trim_zeros t else filt
  end.

(** The coefficient array [np.poly1d(c)] keeps: leading zeros trimmed,
    and [[0]] when nothing is left. *)
Definition poly1d (c : list T) : list T :=
  match trim_zeros c with
  | [] => [zero]
  | t => t
  end.

(** The polynomials of the data model: no leading zero coefficient,
    except for the one-coefficient zero polynomial. *)
Definition canonical (p : list T) : Prop :=
  p = [zero] \/ exists x t, p = x :: t /\ is_zero x = false.

(** The sum the specification describes for [add(p, q)]: both operands
    padded in front with zeros to the longer length, then added
    coefficient by coefficient. *)
Definition right_aligned_sum (p q : list T) : list T :=
  let n := Nat.max (length p) (length q) in
  zip_with add (repeat zero (n - length p) ++ p)
               (repeat zero (n - length q) ++ q).

(** One output sample of [np.correlate(a, v, mode='full')]:
    the sum over the overlap of [a[i] * v[i + len(v) - 1 - k]]. *)
Definition correlate_at (a v : list T) (k : nat) : T :=
  let lo := (k + 1 - length v)%nat in
  let hi := Nat.min k (length a - 1) in
  fold_left add
    (map (fun i => mul (nth i a zero) (nth (i + (length v - 1) - k) v zero))
         (seq lo (hi + 1 - lo)))
    zero.

Definition correlate_full (a v : list T) : list T :=
  map (correlate_at a v) (seq 0 (length a + length v - 1)).

(** [np.convolve(a, v)] with the default mode ['full']. *)
Definition convolve (a v : list T) : result (list T) :=
  let '(a, v) := if (length a <? length v)%nat then (v, a) else (a, v) in
  if (length a =? 0)%nat then inl ValueError
  else if (length v =? 0)%nat then inl ValueError
  else inr (correlate_full a (rev v)).

(** [np.polymul(a1, a2)] on plain sequences. *)
Definition polymul (a1 a2 : list T) : result (list T) :=
  convolve (poly1d a1) (poly1d a2).

(** [np.polyadd(a1, a2)] on plain sequences: the shorter operand is
    padded in front with zeros; nothing is trimmed. *)
Definition polyadd (a1 a2 : list T) : list T :=
  let diff := (Z.of_nat (length a2) - Z.of_nat (length a1))%Z in
  if (diff =? 0)%Z then zip_with add a1 a2
  else if (0 <? diff)%Z
       then zip_with add (repeat zero (Z.to_nat diff) ++ a1) a2
       else zip_with add a1 (repeat zero (Z.abs_nat diff) ++ a2).

End Poly.

(** Coefficient [k] of a product of two polynomials in its textbook
    form, the sum of [a[i] * v[k - i]] over [i = 0 .. k] with
    coefficients beyond either end read as zero; [np.convolve] is
    compared with it below. *)
Definition cauchy (a v : list R) (k : nat) : R :=
  fold_left Rplus
    (map (fun i => nth i a 0 * nth (k - i) v 0) (seq 0 (S k))) 0.

(** [np.polyval(p, x)] at one complex point, real coefficients promoted:
    [y = zeros_like(x)], then [y = y * x + pv] for each coefficient. *)
Definition polyval (p : list R) (x : C) : C :=
  fold_left (fun y pv => Cadd (Cmul y x) (RtoC pv)) p C0.

(** *** Element-wise functions used for Bode data *)

(** [np.log10]: minus infinity at zero and NaN below it. *)
Definition log10 (x : float64) : float64 :=
  match x with
  | Some a => if Rlt_dec 0 a then Some (ln a / ln 10) else None
  | None => None
  end.

(** [np.arctan2(y, x)] on finite operands (signed zeros are not
    distinguished). *)
Definition arctan2 (y x : R) : R :=
  if Rlt_dec 0 x then atan (y / x)
  else if Rlt_dec x 0
       then (if Rle_dec 0 y then atan (y / x) + PI else atan (y / x) - PI)
       else if Rlt_dec 0 y then PI / 2
            else if Rlt_dec y 0 then - (PI / 2) else 0.

(** [np.angle(z)] is [arctan2(z.imag, z.real)].  A sample with an
    infinite or NaN part has one representation here, and its angle is
    left unrepresented as well, also where numpy's [arctan2] of two
    infinities is a finite number. *)
Definition angle (z : complex128) : float64 :=
  lift1 (fun a => arctan2 (snd a) (fst a)) z.

(** [np.mod(x, m)] for a non-zero [m]: the remainder of floored
    division. *)
Definition Rfmod (x m : R) : R := x - m * IZR (Int_part (x / m)).
Definition f_mod (x : float64) (m : R) : float64 :=
  lift1 (fun a => Rfmod a m) x.

(** Comparisons; any comparison with a NaN is false. *)
Definition f_eqb (x : float64) (y : R) : bool :=
  match x with Some a => if Req_dec_T a y then true else false | None => false end.
Definition f_ltb (x : float64) (y : R) : bool :=
  match x with Some a => if Rlt_dec a y then true else false | None => false end.
Definition f_gtb (x : float64) (y : R) : bool :=
  match x with Some a => if Rlt_dec y a then true else false | None => false end.
Definition f_abs : float64 -> float64 := lift1 Rabs.

(** [np.diff(p)] of a 1-D array. *)
Fixpoint diff (p : list float64) : list float64 :=
  match p with
  | a :: ((b :: _) as t) => f_sub b a :: diff t
  | _ => []
  end.

(** [x.cumsum()]. *)
Fixpoint cumsum_from (acc : float64) (l : list float64) : list float64 :=
  match l with
  | [] => []
  | x :: t => let s := f_add acc x in s :: cumsum_from s t
  end.
Definition cumsum (l : list float64) : list float64 :=
  match l with
  | [] => []
  | x :: t => x :: cumsum_from x t
  end.

(** [np.unwrap(p)] with the defaults [discont=None], [period=2*pi] on a
    1-D float array. *)
Definition unwrap (p : list float64) : list float64 :=
  let period := 2 * pi in
  let discont := period / 2 in
  let interval_high := period / 2 in
  let interval_low := - interval_high in
  let dd := diff p in
  let ddmod :=
    map (fun d => f_add (f_mod (f_sub d (Some interval_low)) period)
                        (Some interval_low)) dd in
  (* copyto(ddmod, interval_high, where=(ddmod == interval_low) & (dd > 0)) *)
  let ddmod :=
    zip_with (fun m d => if f_eqb m interval_low && f_gtb d 0
                         then Some interval_high else m) ddmod dd in
  let ph_correct := zip_with f_sub ddmod dd in
  (* copyto(ph_correct, 0, where=abs(dd) < discont) *)
  let ph_correct :=
    zip_with (fun c d => if f_ltb (f_abs d) discont then Some 0 else c)
             ph_correct dd in
  match p with
  | [] => []
  | p0 :: rest => p0 :: zip_with f_add rest (cumsum ph_correct)
  end.

(** A phase or magnitude array that is zero at every sample. *)
Definition all_zero (l : list float64) : Prop :=
  Forall (fun x => x = Some 0) l.

(** *** 2-D arrays *)

Record ndarray : Type := mk_ndarray {
  nrows : nat;
  ncols : nat;
  rows : list (list C)
}.

(** The shape fields describe the data. *)
Definition well_shaped (a : ndarray) : Prop :=
  length (rows a) = nrows a /\
  Forall (fun r => length r = ncols a) (rows a).

(** [np.array(nested)] for a rectangular nested list. *)
Definition array (l : list (list C)) : ndarray :=
  mk_ndarray (length l) (length (hd [] l)) l.

(** [np.eye(n)] and [np.zeros((p, m))]. *)
Definition eye (n : nat) : ndarray :=
  mk_ndarray n n
    (map (fun i => map (fun j => if (i =? j)%nat then C1 else C0) (seq 0 n))
         (seq 0 n)).
Definition zeros (p m : nat) : ndarray :=
  mk_ndarray p m (repeat (repeat C0 m) p).

(** [z * a] for a scalar [z]. *)
Definition scale (z : C) (a : ndarray) : ndarray :=
  mk_ndarray (nrows a) (ncols a) (map (map (Cmul z)) (rows a)).

(** Broadcasting of one axis: equal extents, or one of them is 1. *)
Definition bdim (a b : nat) : result nat :=
  if (a =? b)%nat then inr a
  else if (a =? 1)%nat then inr b
  else if (b =? 1)%nat then inr a
  else inl ValueError.

Definition stretch {X} (d : X) (n : nat) (l : list X) : list X :=
  if (length l =? n)%nat then l else repeat (hd d l) n.

(** Element-wise [a op b] with numpy broadcasting. *)
Definition elementwise (op : C -> C -> C) (a b : ndarray) : result ndarray :=
  (r <~ bdim (nrows a) (nrows b) ;;
   c <~ bdim (ncols a) (ncols b) ;;
   let ra := stretch [] r (map (stretch C0 c) (rows a)) in
   let rb := stretch [] r (map (stretch C0 c) (rows b)) in
   inr (mk_ndarray r c (zip_with (zip_with op) ra rb)))%np.

Definition ndadd : ndarray -> ndarray -> result ndarray := elementwise Cadd.
Definition ndsub : ndarray -> ndarray -> result ndarray := elementwise Csub.

(** [a[i, j]] for non-negative indices. *)
Definition getitem (a : ndarray) (i j : nat) : result C :=
  if (i <? nrows a)%nat && (j <? ncols a)%nat
  then inr (nth j (nth i (rows a) []) C0)
  else inl IndexError.

Definition dot (u v : list C) : C :=
  fold_left Cadd (zip_with Cmul u v) C0.
Definition column (j : nat) (b : ndarray) : list C :=
  map (fun r => nth j r C0) (rows b).

(** [a @ b] on 2-D operands: the inner extents must agree. *)
Definition matmul (a b : ndarray) : result ndarray :=
  if (ncols a =? nrows b)%nat
  then inr (mk_ndarray (nrows a) (ncols b)
              (map (fun r => map (fun j => dot r (column j b))
                                 (seq 0 (ncols b)))
                   (rows a)))
  else inl ValueError.

End np.
Import np.

(* ================================================================== *)
(** ** scipy.linalg and scipy.signal *)

Module la.

Fixpoint drop_nth {X} (j : nat) (l : list X) : list X :=
  match l, j with
  | [], _ => []
  | _ :: t, O => t
  | x :: t, S j' => x :: drop_nth j' t
  end.

Definition sign (k : nat) : C := if Nat.even k then C1 else RtoC (-1).

(** Determinant of the leading [n] by [n] data, expanded along the
    first row. *)
Fixpoint det (n : nat) (m : list (list C)) : C :=
  match n with
  | O => C1
  | S k =>
      match m with
      | [] => C0
      | r :: rest =>
          fold_left Cadd
            (map (fun j => Cmul (Cmul (sign j) (nth j r C0))
                                (det k (map (drop_nth j) rest)))
                 (seq 0 n))
            C0
      end
  end.

Definition minor (i j : nat) (m : list (list C)) : list (list C) :=
  map (drop_nth j) (drop_nth i m).

(** The inverse by cofactors, for a non-zero determinant [d]. *)
Definition adjugate_over (n : nat) (d : C) (m : list (list C))
  : list (list C) :=
  map (fun i =>
         map (fun j => Cmul (Cmul (sign (i + j)) (det (n - 1) (minor j i m)))
                            (Cinv d))
             (seq 0 n))
      (seq 0 n).

(** [scipy.linalg.inv(a)]: [ValueError] unless [a] is square, then the
    LU factorisation is run and [LinAlgError] reports a singular matrix.
    In exact arithmetic the result is the inverse matrix, computed here
    by cofactors. *)
Definition inv (a : ndarray) : M ndarray :=
  if negb (nrows a =? ncols a)%nat then mraise ValueError
  else
    (_ <- tick ;;
     let n := nrows a in
     let d := det n (rows a) in
     if Cis_zero d then mraise LinAlgError
     else mret (mk_ndarray n n (adjugate_over n d (rows a))))%np.

End la.

Module signal.

(** [scipy.signal.freqs(b, a, worN=w)] for an array [w] of angular
    frequencies: [s = 1j * w], [h = polyval(b, s) / polyval(a, s)]. *)
Definition freqs (b a : list R) (w : list R) : list R * list complex128 :=
  let s := map (fun wi => Cmul Ci (RtoC wi)) w in
  let h := map (fun si => Cdiv (polyval b si) (polyval a si)) s in
  (w, h).

End signal.

(* ================================================================== *)
(** ** classical_controller.py *)

Module classical_controller.

Section TF.
Context {T : Type} `{Dtype T}.

(** [tf_series], lines 12-13. *)
Definition tf_series (num1 den1 num2 den2 : list T)
  : result (list T * list T) :=
  (n <~ polymul num1 num2 ;;
   d <~ polymul den1 den2 ;;
   inr (n, d))%np.

(** [tf_feedback], lines 15-19. *)
Definition tf_feedback (num_ol den_ol : list T) : list T * list T :=
  let num_cl := num_ol in
  let den_cl := polyadd den_ol num_ol in
  (num_cl, den_cl).

End TF.

(** [bode_mag_phase], lines 6-10. *)
Definition bode_mag_phase (num den : list R) (w : list R)
  : list float64 * list float64 :=
  let '(w, h) := signal.freqs num den w in
  let mag_db := map (fun hi => f_mul (Some 20) (log10 (c_abs hi))) h in
  let ph_deg :=
    map (fun u => f_div (f_mul u (Some 180)) (Some pi))
        (unwrap (map angle h)) in
  (mag_db, ph_deg).

End classical_controller.
Import classical_controller.

(* ================================================================== *)
(** ** modern_contoller.py

    [demo_statespace_to_tf] hard-wires a system with four states and two
    outputs.  The embedding keeps its expressions as they are written,
    the identity [np.eye(4)] and the entries [G[0,0]] and [G[1,0]]
    included, and takes the matrices and the grid as parameters. *)

Module modern_contoller.

(** Line 26 (and 52, 78):
    [G = C @ la.inv(1j*wi*np.eye(4) - A) @ B + D].
    Python evaluates the inversion first, then the two products from
    the left, then the sum. *)
Definition response_at (A B C D : ndarray) (wi : R) : M ndarray :=
  (jwI_A <- lift (ndsub (scale (Cmul Ci (RtoC wi)) (eye 4)) A) ;;
   X <- la.inv jwI_A ;;
   CX <- lift (matmul C X) ;;
   CXB <- lift (matmul CX B) ;;
   lift (ndadd CXB D))%np.

(** What C3 asks of a call: an exception, with no inversion started. *)
Definition raises_before_any_solve {X} (c : M X) : Prop :=
  exists e : exn, c 0%nat = (0%nat, inl e).

(** The body of the loops of lines 25-27, 51-53 and 77-79, for a
    response [G_at] of one grid point: the entries [G[0,0]] and
    [G[1,0]] are appended to the two lists, in this order. *)
Fixpoint sweep (G_at : R -> M ndarray) (w : list R) (H11 H21 : list C)
  : M (list C * list C) :=
  match w with
  | [] => mret (H11, H21)
  | wi :: w' =>
      (G <- G_at wi ;;
       g00 <- lift (getitem G 0 0) ;;
       g10 <- lift (getitem G 1 0) ;;
       sweep G_at w' (H11 ++ [g00]) (H21 ++ [g10]))%np
  end.

(** Lines 24-28 (and [frf], lines 75-80): the two lists start empty
    and are returned as the arrays [H11] and [H21]. *)
Definition frequency_response (A B C D : ndarray) (w : list R)
  : M (list Cplx.C * list Cplx.C) :=
  sweep (response_at A B C D) w [] [].

(** Test systems for the sweep.  [diag4 z] is z times the 4 by 4
    identity.  The padded matrices are the dynamics x' = a x + b u,
    y = c x of one state, written on the four states and two outputs
    the sweep is hard-wired to: the other three states are copies that
    nothing drives or observes, the second output is identically zero,
    and there is no feedthrough. *)
Definition diag4 (z : Cplx.C) : ndarray :=
  array [[z; C0; C0; C0]; [C0; z; C0; C0]; [C0; C0; z; C0]; [C0; C0; C0; z]].
Definition padded_A (a : R) : ndarray := diag4 (RtoC a).
Definition padded_B (b : R) : ndarray :=
  array [[RtoC b]; [C0]; [C0]; [C0]].
Definition padded_C (c : R) : ndarray :=
  array [[RtoC c; C0; C0; C0]; [C0; C0; C0; C0]].
Definition padded_D : ndarray := zeros 2 1.

(** Line 43: [Acl = A - B @ K @ C1]. *)
Definition Acl_of (A B K C1 : ndarray) : result ndarray :=
  (BK <~ matmul B K ;;
   BKC <~ matmul BK C1 ;;
   ndsub A BKC)%np.

(** Line 46: [Ccl = C - D @ K @ C1]. *)
Definition Ccl_of (C D K C1 : ndarray) : result ndarray :=
  (DK <~ matmul D K ;;
   DKC <~ matmul DK C1 ;;
   ndsub C DKC)%np.

(** Lines 43-54: the loop closed through the gain K on the measurement
    C1, then the same frequency sweep on the closed-loop matrices
    ([Bcl] and [Dcl] are copies of B and D). *)
Definition closed_loop_response (A B C D K C1 : ndarray) (w : list R)
  : M (list Cplx.C * list Cplx.C) :=
  (Acl <- lift (Acl_of A B K C1) ;;
   Ccl <- lift (Ccl_of C D K C1) ;;
   frequency_response Acl B Ccl D w)%np.



End modern_contoller.
Import modern_contoller.

(* ================================================================== *)
(** ** multi_sas_attenuation.py

    A keyword parameter with a default is an [option]: [None] takes the
    default of the signature.  The grid [w] is a 1-D array of finite
    angular frequencies and every function maps over it. *)

Module multi_sas_attenuation.

Definition kw (default : R) (arg : option R) : R :=
  match arg with Some x => x | None => default end.

(** [H_ip_basic(w, f0=0.1, beta=0.07, phi=1e-4)], lines 21-38. *)
Definition H_ip_basic (w : list R) (f0 beta phi : option R)
  : list complex128 :=
  let f0 := kw (1/10) f0 in
  let beta := kw (7/100) beta in
  let phi := kw (1/10000) phi in
  let w0 := 2 * pi * f0 in
  map (fun wi =>
         let num := Cadd (Cmul (RtoC (w0 ^ 2)) (Cadd C1 (Cmul Ci (RtoC phi))))
                         (RtoC (beta * wi ^ 2)) in
         let den := Csub (Cmul (RtoC (w0 ^ 2)) (Cadd C1 (Cmul Ci (RtoC phi))))
                         (RtoC (wi ^ 2)) in
         Cdiv num den) w.

(** [H_ip_countermass(w, f0=0.1, gamma=0.01, phi=1e-4)], lines 40-50. *)
Definition H_ip_countermass (w : list R) (f0 gamma phi : option R)
  : list complex128 :=
  let f0 := kw (1/10) f0 in
  let gamma := kw (1/100) gamma in
  let phi := kw (1/10000) phi in
  let w0 := 2 * pi * f0 in
  map (fun wi =>
         let num := Cadd (Cmul (RtoC (w0 ^ 2)) (Cadd C1 (Cmul Ci (RtoC phi))))
                         (RtoC (gamma * wi ^ 2)) in
         let den := Csub (Cmul (RtoC (w0 ^ 2)) (Cadd C1 (Cmul Ci (RtoC phi))))
                         (RtoC (wi ^ 2)) in
         Cdiv num den) w.

(** Python's [x / y] on two floats. *)
Definition float_div (x y : R) : result R :=
  if Ris_zero y then inl ZeroDivisionError else inr (x / y).

(** [H_gas_single(w, f0=0.3, M=350.0, m=110.0, phi=1e-3, gamma=0.05)],
    lines 55-76. *)
Definition H_gas_single (w : list R) (f0 M m phi gamma : option R)
  : result (list complex128) :=
  let f0 := kw (3/10) f0 in
  let M := kw 350 M in
  let m := kw 110 m in
  let phi := kw (1/1000) phi in
  let gamma := kw (5/100) gamma in
  let w0 := 2 * pi * f0 in
  (m_M <~ float_div m M ;;
   g_M <~ float_div gamma M ;;
   inr (map (fun wi =>
          let num :=
            Cadd (Cmul (RtoC (w0 ^ 2)) (Cadd C1 (Cmul Ci (RtoC phi))))
                 (RtoC (m_M * wi ^ 2)) in
          let den :=
            Cadd (Csub (Cmul (RtoC (w0 ^ 2)) (Cadd C1 (Cmul Ci (RtoC phi))))
                       (RtoC (wi ^ 2)))
                 (Cmul (Cmul Ci (RtoC g_M)) (RtoC wi)) in
          Cdiv num den) w))%np.

(** [H_gas_cascade(w, f0_list, M=350.0, m=11.0, phi=1e-3, gamma=0.05)],
    lines 79-87. *)
Definition H_gas_cascade (w : list R) (f0_list : list R)
  (M m phi gamma : option R) : result (list complex128) :=
  let M := kw 350 M in
  let m := kw 11 m in
  let phi := kw (1/1000) phi in
  let gamma := kw (5/100) gamma in
  fold_left
    (fun acc f0 =>
       (H <~ acc ;;
        Hs <~ H_gas_single w (Some f0) (Some M) (Some m) (Some phi)
                (Some gamma) ;;
        inr (zip_with c_mul H Hs))%np)
    f0_list (inr (ones_like w)).

(** [H_pend_single(w, f0=0.5, Q=50.0)], lines 93-108. *)
Definition H_pend_single (w : list R) (f0 Q : option R) : list complex128 :=
  let f0 := kw (1/2) f0 in
  let Q := kw 50 Q in
  let w0 := 2 * pi * f0 in
  let num := w0 ^ 2 in
  map (fun wi =>
         let den :=
           c_add (Some (RtoC (w0 ^ 2 - wi ^ 2)))
                 (Cdiv (Cmul (Cmul Ci (RtoC wi)) (RtoC w0)) (RtoC Q)) in
         c_div (Some (RtoC num)) den) w.

(** [H_pend_cascade(w, f0_list, Q=50.0)], lines 111-119. *)
Definition H_pend_cascade (w : list R) (f0_list : list R) (Q : option R)
  : list complex128 :=
  let Q := kw 50 Q in
  fold_left
    (fun H f0 => zip_with c_mul H (H_pend_single w (Some f0) (Some Q)))
    f0_list (ones_like w).

End multi_sas_attenuation.
Import multi_sas_attenuation.

(* ================================================================== *)
(** * Properties *)

(* ------------------------------------------------------------------ *)
(** ** Complex arithmetic *)

Lemma C_eq (a b : C) : fst a = fst b -> snd a = snd b -> a = b.
Proof. destruct a, b; simpl; intros; subst; reflexivity. Qed.

Ltac c_ring :=
  apply C_eq; unfold Cmul, Cadd, Csub, C1, C0, Ci, RtoC; simpl; ring.

Lemma Cmul_1_l (a : C) : Cmul C1 a = a.
Proof. c_ring. Qed.

Lemma Cmul_1_r (a : C) : Cmul a C1 = a.
Proof. c_ring. Qed.

Lemma Cmul_0_l (a : C) : Cmul C0 a = C0.
Proof. c_ring. Qed.

Lemma Cmul_assoc (a b c : C) : Cmul (Cmul a b) c = Cmul a (Cmul b c).
Proof. c_ring. Qed.

Lemma Cadd_0_l (a : C) : Cadd C0 a = a.
Proof. c_ring. Qed.

Lemma Cadd_0_r (a : C) : Cadd a C0 = a.
Proof. c_ring. Qed.

Lemma Csub_0_r (a : C) : Csub a C0 = a.
Proof. c_ring. Qed.

Lemma Cnorm2_mul (a b : C) : Cnorm2 (Cmul a b) = Cnorm2 a * Cnorm2 b.
Proof. unfold Cnorm2, Cmul; simpl; ring. Qed.

Lemma Cnorm2_nonneg (a : C) : 0 <= Cnorm2 a.
Proof. unfold Cnorm2. nra. Qed.

Lemma Cabs_mul (a b : C) : Cabs (Cmul a b) = Cabs a * Cabs b.
Proof.
  unfold Cabs. rewrite Cnorm2_mul.
  apply sqrt_mult; apply Cnorm2_nonneg.
Qed.

Lemma Cabs_1 : Cabs C1 = 1.
Proof.
  unfold Cabs, Cnorm2, C1, RtoC; simpl.
  replace (1 * (1 * 1) + 0 * (0 * 1)) with 1 by ring.
  apply sqrt_1.
Qed.

Lemma Ris_zero_true (x : R) : Ris_zero x = true <-> x = 0.
Proof. unfold Ris_zero. destruct (Req_dec_T x 0); split; congruence. Qed.

Lemma Ris_zero_false (x : R) : Ris_zero x = false <-> x <> 0.
Proof. unfold Ris_zero. destruct (Req_dec_T x 0); split; congruence. Qed.

Lemma Cis_zero_false (a : C) :
  fst a <> 0 \/ snd a <> 0 -> Cis_zero a = false.
Proof.
  unfold Cis_zero. intros [Hn | Hn];
    apply Ris_zero_false in Hn; rewrite Hn; auto using andb_false_r.
Qed.

(* ------------------------------------------------------------------ *)
(** ** Polynomial routines *)

#[export] Instance float64_exact : DtypeExact R.
Proof.
  split; simpl; intros.
  - ring.
  - ring.
  - apply Ris_zero_false. lra.
  - apply Ris_zero_true. reflexivity.
  - apply Ris_zero_true. assumption.
Qed.

Section PolyFacts.
Context {T : Type} `{DtypeExact T}.

Lemma poly1d_canonical (p : list T) : canonical p -> poly1d p = p.
Proof.
  intros [-> | (x & t & -> & Hx)]; unfold poly1d; simpl.
  - rewrite zero_is_zero. reflexivity.
  - rewrite Hx. reflexivity.
Qed.

Lemma poly1d_one : poly1d [one] = [one].
Proof. unfold poly1d; simpl. rewrite one_not_zero. reflexivity. Qed.

Lemma poly1d_nonempty (p : list T) : poly1d p <> [].
Proof.
  unfold poly1d. destruct (trim_zeros p); discriminate.
Qed.

Lemma correlate_at_unit (a : list T) (k : nat) :
  (k < length a)%nat -> correlate_at a [one] k = nth k a zero.
Proof.
  intros Hk. unfold correlate_at. simpl length.
  replace (k + 1 - 1)%nat with k by lia.
  replace (Nat.min k (length a - 1)) with k by lia.
  replace (k + 1 - k)%nat with 1%nat by lia.
  simpl. replace (k + 0 - k)%nat with 0%nat by lia.
  rewrite mul_one_r, add_zero_l. reflexivity.
Qed.

Lemma map_nth_seq (a : list T) :
  map (fun k => nth k a zero) (seq 0 (length a)) = a.
Proof.
  induction a as [| x a IH]; simpl; [reflexivity |].
  f_equal. rewrite <- seq_shift, map_map. exact IH.
Qed.

Lemma correlate_full_unit (a : list T) : correlate_full a [one] = a.
Proof.
  unfold correlate_full. simpl length.
  replace (length a + 1 - 1)%nat with (length a) by lia.
  rewrite <- (map_nth_seq a) at 3.
  apply map_ext_in. intros k Hk. apply in_seq in Hk.
  apply correlate_at_unit. lia.
Qed.

Lemma convolve_unit (a : list T) : a <> [] -> convolve a [one] = inr a.
Proof.
  intros Ha. unfold convolve. simpl length.
  destruct a as [| x a]; [congruence |].
  simpl length. simpl Nat.ltb.
  destruct (length a) eqn:E; simpl; rewrite correlate_full_unit; reflexivity.
Qed.

(** Multiplying by [[1]] returns the [poly1d] form of the operand. *)
Lemma polymul_unit (a : list T) : polymul a [one] = inr (poly1d a).
Proof.
  unfold polymul. rewrite poly1d_one.
  apply convolve_unit, poly1d_nonempty.
Qed.

Lemma tf_series_identity_poly1d (num den : list T) :
  tf_series num den [one] [one] = inr (poly1d num, poly1d den).
Proof.
  unfold tf_series. rewrite !polymul_unit. reflexivity.
Qed.

End PolyFacts.

Section PolyaddFacts.
Context {T : Type} `{Dtype T}.

Lemma polyadd_right_aligned (a1 a2 : list T) :
  polyadd a1 a2 = right_aligned_sum a1 a2.
Proof.
  unfold polyadd, right_aligned_sum.
  destruct (Z.eqb_spec (Z.of_nat (length a2) - Z.of_nat (length a1)) 0)
    as [E | E].
  - replace (Nat.max (length a1) (length a2) - length a1)%nat with 0%nat
      by lia.
    replace (Nat.max (length a1) (length a2) - length a2)%nat with 0%nat
      by lia.
    reflexivity.
  - destruct (Z.ltb_spec 0 (Z.of_nat (length a2) - Z.of_nat (length a1)))
      as [L | L].
    + replace (Nat.max (length a1) (length a2) - length a2)%nat with 0%nat
        by lia.
      replace (Nat.max (length a1) (length a2) - length a1)%nat
        with (Z.to_nat (Z.of_nat (length a2) - Z.of_nat (length a1)))
        by lia.
      reflexivity.
    + replace (Nat.max (length a1) (length a2) - length a1)%nat with 0%nat
        by lia.
      replace (Nat.max (length a1) (length a2) - length a2)%nat
        with (Z.abs_nat (Z.of_nat (length a2) - Z.of_nat (length a1)))
        by lia.
      reflexivity.
Qed.

End PolyaddFacts.

(** C2. [tf_feedback] on the open loop num=[25], den=[1,3,25] returns
    num=[25], den=[1,3,50], for integer and for float coefficients; in
    general the numerator comes back unchanged and the denominator is
    the right-aligned coefficient sum of the open-loop denominator and
    numerator. *)
Theorem tf_feedback_unity_25 :
  tf_feedback [25%Z] [1%Z; 3%Z; 25%Z] = ([25%Z], [1%Z; 3%Z; 50%Z]) /\
  tf_feedback [25] [1; 3; 25] = ([25], [1; 3; 50]) /\
  (forall num den : list R,
      tf_feedback num den = (num, right_aligned_sum den num)).
Proof.
  split; [| split].
  - vm_compute. reflexivity.
  - unfold tf_feedback, polyadd. simpl.
    repeat f_equal; ring.
  - intros num den. unfold tf_feedback.
    rewrite polyadd_right_aligned. reflexivity.
Qed.

(** C4, as stated, fails: [np.polymul] builds a [poly1d] of each
    operand, which strips leading zeros, so the pair ([0,1], [1]) in
    series with ([1], [1]) comes back as ([1], [1]). *)
Lemma tf_series_identity_strips_leading_zero :
  tf_series [0%Z; 1%Z] [1%Z] [1%Z] [1%Z] = inr ([1%Z], [1%Z]) /\
  tf_series [0%Z; 1%Z] [1%Z] [1%Z] [1%Z] <> inr ([0%Z; 1%Z], [1%Z]).
Proof.
  split.
  - vm_compute. reflexivity.
  - vm_compute. intros E. discriminate E.
Qed.

(** C4, amended.  For a transfer function whose numerator and
    denominator carry no leading zero coefficient (or are the
    one-coefficient zero polynomial), [tf_series] with the identity
    ([1], [1]) returns the pair unchanged. *)
Theorem tf_series_identity_canonical
  (T : Type) (dt : Dtype T) (ex : DtypeExact T) (num den : list T) :
  canonical num -> canonical den ->
  tf_series num den [one] [one] = inr (num, den).
Proof.
  intros Hn Hd. rewrite tf_series_identity_poly1d.
  rewrite (poly1d_canonical num Hn), (poly1d_canonical den Hd).
  reflexivity.
Qed.

Lemma tf_series_identity_canonical_witness :
  canonical [25] /\ canonical [1; 3; 25] /\
  tf_series [25] [1; 3; 25] [1] [1] = inr ([25], [1; 3; 25]).
Proof.
  assert (Hn : canonical [25]).
  { right. exists 25, []. split; [reflexivity |].
    apply Ris_zero_false. lra. }
  assert (Hd : canonical [1; 3; 25]).
  { right. exists 1, [3; 25]. split; [reflexivity |].
    apply Ris_zero_false. lra. }
  split; [exact Hn | split; [exact Hd |]].
  exact (tf_series_identity_canonical R dtype_float64 float64_exact
           [25] [1; 3; 25] Hn Hd).
Defined.

(* ------------------------------------------------------------------ *)
(** ** Isolator models and their cascades *)

Lemma c_mul_1_l (x : complex128) : c_mul (Some C1) x = x.
Proof. destruct x as [a |]; simpl; [rewrite Cmul_1_l |]; reflexivity. Qed.

Lemma c_mul_assoc (x y z : complex128) :
  c_mul (c_mul x y) z = c_mul x (c_mul y z).
Proof.
  destruct x, y, z; simpl; try reflexivity.
  rewrite Cmul_assoc. reflexivity.
Qed.

Lemma zip_with_ones_l (H : list complex128) :
  zip_with c_mul (ones_like H) H = H.
Proof.
  induction H as [| h H IH]; simpl; [reflexivity |].
  rewrite IH. destruct h as [a |]; simpl; [rewrite Cmul_1_l |]; reflexivity.
Qed.

Lemma zip_with_ones_like_l {A} (w : list A) (H : list complex128) :
  length w = length H -> zip_with c_mul (ones_like w) H = H.
Proof.
  revert H. induction w as [| a w IH]; intros [| h H] E; simpl in *;
    try reflexivity; try discriminate.
  rewrite IH by congruence.
  destruct h as [b |]; simpl; [rewrite Cmul_1_l |]; reflexivity.
Qed.

Lemma zip_with_map_r {A B D E} (f : A -> D -> E) (g : B -> D)
  (l : list A) (l' : list B) :
  zip_with f l (map g l') = zip_with (fun a b => f a (g b)) l l'.
Proof.
  revert l'. induction l as [| a l IH]; intros [| b l']; simpl;
    try reflexivity.
  rewrite IH. reflexivity.
Qed.

Lemma zip_with_assoc_pow (S H0 : list complex128) (n : nat) :
  zip_with c_mul (zip_with c_mul H0 S) (map (fun h => c_pow h n) S) =
  zip_with c_mul H0 (map (fun h => c_pow h (Datatypes.S n)) S).
Proof.
  revert H0. induction S as [| s S IH]; intros [| h0 H0]; simpl;
    try reflexivity.
  rewrite IH. f_equal. apply c_mul_assoc.
Qed.

Lemma zip_with_pow_0 (S H0 : list complex128) :
  length H0 = length S ->
  zip_with c_mul H0 (map (fun h => c_pow h 0) S) = H0.
Proof.
  revert H0. induction S as [| s S IH]; intros [| h0 H0] E; simpl in *;
    try reflexivity; try discriminate.
  rewrite IH by congruence. f_equal.
  destruct h0 as [a |]; simpl; [rewrite Cmul_1_r |]; reflexivity.
Qed.

Lemma length_zip_with {A B D} (f : A -> B -> D) (l : list A) (l' : list B) :
  length l = length l' -> length (zip_with f l l') = length l.
Proof.
  revert l'. induction l as [| a l IH]; intros [| b l'] E; simpl in *;
    try reflexivity; try discriminate.
  rewrite IH by congruence. reflexivity.
Qed.

(** The loop of a cascade over [n] copies of one stage [S], started
    from an accumulator [H0] of the same length. *)
Lemma cascade_fold_repeat {X} (S : list complex128) (x : X) (n : nat) :
  forall H0, length H0 = length S ->
  fold_left (fun H (_ : X) => zip_with c_mul H S) (repeat x n) H0 =
  zip_with c_mul H0 (map (fun h => c_pow h n) S).
Proof.
  induction n as [| n IH]; intros H0 E; simpl.
  - symmetry. apply zip_with_pow_0. exact E.
  - rewrite IH by (rewrite length_zip_with; assumption).
    apply zip_with_assoc_pow.
Qed.

Lemma c_abs_pow (h : complex128) (n : nat) :
  c_abs (c_pow h n) = f_pow (c_abs h) n.
Proof.
  induction n as [| n IH]; simpl.
  - rewrite Cabs_1. reflexivity.
  - rewrite <- IH. destruct h as [a |]; simpl; [| reflexivity].
    destruct (c_pow (Some a) n) as [b |]; simpl; [| reflexivity].
    rewrite Cabs_mul. reflexivity.
Qed.

Lemma length_H_pend_single (w : list R) (f0 Q : option R) :
  length (H_pend_single w f0 Q) = length w.
Proof. unfold H_pend_single. apply length_map. Qed.

Lemma length_ones_like {A} (w : list A) : length (ones_like w) = length w.
Proof. unfold ones_like. apply length_map. Qed.

(** C5. For every grid, resonance, quality factor and every N >= 1,
    the cascade of N horizontal-pendulum stages at one resonance is,
    point by point, the N-th power of the single-stage response, and
    its magnitude is the N-th power of the single-stage magnitude. *)
Theorem H_pend_cascade_identical_stages
  (w : list R) (f0 : R) (Q : option R) (N : nat) :
  (1 <= N)%nat ->
  H_pend_cascade w (repeat f0 N) Q =
    map (fun h => c_pow h N) (H_pend_single w (Some f0) Q) /\
  map c_abs (H_pend_cascade w (repeat f0 N) Q) =
    map (fun h => f_pow (c_abs h) N) (H_pend_single w (Some f0) Q).
Proof.
  intros _.
  assert (E : H_pend_cascade w (repeat f0 N) Q =
              map (fun h => c_pow h N) (H_pend_single w (Some f0) Q)).
  { unfold H_pend_cascade.
    replace (H_pend_single w (Some f0) Q)
      with (H_pend_single w (Some f0) (Some (kw 50 Q)))
      by (destruct Q; reflexivity).
    set (S := H_pend_single w (Some f0) (Some (kw 50 Q))).
    assert (L : length (ones_like w) = length S).
    { unfold S. rewrite length_H_pend_single, length_ones_like.
      reflexivity. }
    transitivity
      (fold_left (fun H (_ : R) => zip_with c_mul H S) (repeat f0 N)
                 (ones_like w)).
    - generalize (ones_like w). induction N as [| N IH]; intros H0; simpl.
      + reflexivity.
      + apply IH.
    - rewrite (cascade_fold_repeat S f0 N _ L).
      rewrite <- (length_map (fun h => c_pow h N) S) in L.
      rewrite length_ones_like in L.
      apply zip_with_ones_like_l. exact L. }
  split; [exact E |].
  rewrite E, map_map. apply map_ext. intros h. apply c_abs_pow.
Qed.

Lemma H_pend_cascade_identical_stages_witness :
  (1 <= 2)%nat /\
  H_pend_cascade [1; 10] (repeat (1/2) 2) None =
    map (fun h => c_pow h 2) (H_pend_single [1; 10] (Some (1/2)) None) /\
  map c_abs (H_pend_cascade [1; 10] (repeat (1/2) 2) None) =
    map (fun h => f_pow (c_abs h) 2)
        (H_pend_single [1; 10] (Some (1/2)) None).
Proof.
  split; [lia |].
  apply (H_pend_cascade_identical_stages [1; 10] (1/2) None 2). lia.
Defined.

(** C6. With an empty list of resonances both cascade helpers return
    the all-ones complex sequence, one [1+0j] per grid point, and that
    sequence is the identity of the element-wise product. *)
Theorem cascade_empty_is_ones :
  (forall (w : list R) (M m phi gamma : option R),
      H_gas_cascade w [] M m phi gamma = inr (ones_like w)) /\
  (forall (w : list R) (Q : option R),
      H_pend_cascade w [] Q = ones_like w) /\
  (forall w : list R,
      ones_like w = repeat (Some (1, 0)) (length w)) /\
  (forall H : list complex128, zip_with c_mul (ones_like H) H = H).
Proof.
  repeat split.
  - intros w. unfold ones_like.
    induction w as [| a w IH]; simpl; [reflexivity |].
    rewrite IH. reflexivity.
  - apply zip_with_ones_l.
Qed.

(** C10. The two inverted-pendulum variants are one function of the
    grid, the resonance, the loss angle and the coupling coefficient;
    their signatures share the defaults of [f0] and [phi] and differ in
    the default of the coefficient, 0.07 against 0.01. *)
Theorem H_ip_variants_agree :
  (forall (w : list R) (f0 phi : option R) (c : R),
      H_ip_basic w f0 (Some c) phi = H_ip_countermass w f0 (Some c) phi) /\
  (forall (w : list R) (f0 phi : option R),
      H_ip_basic w f0 None phi = H_ip_basic w f0 (Some (7/100)) phi /\
      H_ip_countermass w f0 None phi =
        H_ip_countermass w f0 (Some (1/100)) phi).
Proof.
  split.
  - intros w f0 phi c. reflexivity.
  - intros w f0 phi. split; reflexivity.
Qed.

Lemma Cnorm2_inv (b : C) : Cnorm2 b <> 0 -> Cnorm2 (Cinv b) = / Cnorm2 b.
Proof.
  intros Hb. unfold Cinv. unfold Cnorm2 at 1. simpl fst. simpl snd.
  unfold Cnorm2 in *. field. exact Hb.
Qed.

Lemma sqrt_between (x lo hi : R) :
  0 <= lo -> 0 <= hi -> lo ^ 2 <= x -> x <= hi ^ 2 ->
  lo <= sqrt x <= hi.
Proof.
  intros Hlo Hhi H1 H2. split.
  - rewrite <- (sqrt_pow2 lo Hlo). apply sqrt_le_1_alt. exact H1.
  - rewrite <- (sqrt_pow2 hi Hhi). apply sqrt_le_1_alt. exact H2.
Qed.

(** C8. Horizontal pendulum, f0 = 0.5 Hz and Q = 50 (also the defaults
    of the signature), at w = 1000 w0: the response is finite and its
    magnitude is within 1 % of (w0/w)^2. *)
Theorem H_pend_single_high_frequency :
  let w0 := 2 * pi * (1/2) in
  let w := 1000 * w0 in
  exists h : C,
    H_pend_single [w] (Some (1/2)) (Some 50) = [Some h] /\
    H_pend_single [w] None None = [Some h] /\
    Rabs (Cabs h - (w0 / w) ^ 2) <= (1/100) * (w0 / w) ^ 2.
Proof.
  intros w0 w.
  assert (Hpi : 0 < PI) by apply PI_RGT_0.
  assert (Hw0 : w0 = PI) by (unfold w0, pi; field).
  assert (Hw : w = 1000 * PI) by (unfold w; rewrite Hw0; reflexivity).
  set (den := (w0 ^ 2 - w ^ 2, w * w0 / 50)).
  assert (Hq : Cdiv (Cmul (Cmul Ci (RtoC w)) (RtoC w0)) (RtoC 50)
               = Some (0, w * w0 / 50)).
  { unfold Cdiv. rewrite Cis_zero_false by (left; simpl; lra).
    f_equal. apply C_eq; unfold Cmul, Cinv, Cnorm2, Ci, RtoC; simpl; field. }
  assert (Hden : Cis_zero den = false).
  { apply Cis_zero_false. right. unfold den. simpl. rewrite Hw, Hw0. nra. }
  exists (Cmul (RtoC (w0 ^ 2)) (Cinv den)).
  assert (E : H_pend_single [w] (Some (1/2)) (Some 50)
              = [Some (Cmul (RtoC (w0 ^ 2)) (Cinv den))]).
  { unfold H_pend_single. cbn [kw map]. fold w0.
    rewrite Hq. cbn [c_add lift2].
    replace (Cadd (RtoC (w0 ^ 2 - w ^ 2)) (0, w * w0 / 50)) with den
      by (apply C_eq; unfold den, Cadd, RtoC; simpl; ring).
    cbn [c_div]. unfold Cdiv. rewrite Hden. reflexivity. }
  split; [exact E | split; [exact E |]].
  assert (Hn2 : Cnorm2 den = PI ^ 4 * 999998000401).
  { unfold den, Cnorm2. simpl. rewrite Hw, Hw0. field. }
  assert (Hn : Cnorm2 (Cmul (RtoC (w0 ^ 2)) (Cinv den)) = / 999998000401).
  { assert (Hp4 : 0 < PI ^ 4) by (apply pow_lt; exact Hpi).
    rewrite Cnorm2_mul, Cnorm2_inv by (rewrite Hn2; lra).
    rewrite Hn2. unfold Cnorm2, RtoC. simpl. rewrite Hw0. field. lra. }
  assert (Hr : (w0 / w) ^ 2 = / 1000000).
  { rewrite Hw, Hw0. field. lra. }
  rewrite Hr. unfold Cabs. rewrite Hn.
  destruct (sqrt_between (/ 999998000401) (/ 1000000) (101 / 100000000))
    as [B1 B2]; try lra.
  apply Rabs_le. lra.
Qed.

(* ------------------------------------------------------------------ *)
(** ** Bode data *)

Lemma all_zero_eq (l l' : list float64) :
  all_zero l -> all_zero l' -> length l = length l' -> l = l'.
Proof.
  intros Hl. revert l'. induction Hl as [| x l Hx Hl IH];
    intros l' Hl' E; destruct l' as [| y l']; simpl in E;
    try discriminate; [reflexivity |].
  inversion Hl' as [| ? ? Hy Hl'']; subst.
  rewrite (IH l' Hl'') by congruence. reflexivity.
Qed.

Lemma length_zip_with_min {A B D} (f : A -> B -> D)
  (l : list A) (l' : list B) :
  length (zip_with f l l') = Nat.min (length l) (length l').
Proof.
  revert l'. induction l as [| a l IH]; intros [| b l']; simpl;
    try reflexivity.
  rewrite IH. reflexivity.
Qed.

Lemma length_diff (p : list float64) : length (diff p) = (length p - 1)%nat.
Proof.
  induction p as [| a p IH]; [reflexivity |].
  destruct p as [| b p]; [reflexivity |].
  change (diff (a :: b :: p)) with (f_sub b a :: diff (b :: p)).
  simpl length in *. rewrite IH. lia.
Qed.

Lemma all_zero_diff (p : list float64) : all_zero p -> all_zero (diff p).
Proof.
  induction p as [| a p IH]; intros Hp; [constructor |].
  destruct p as [| b p]; [constructor |].
  change (diff (a :: b :: p)) with (f_sub b a :: diff (b :: p)).
  inversion Hp as [| ? ? Ha Hp']; subst.
  inversion Hp' as [| ? ? Hb _]; subst.
  constructor; [| apply IH; assumption].
  simpl. f_equal. ring.
Qed.

Lemma length_cumsum_from (acc : float64) (l : list float64) :
  length (cumsum_from acc l) = length l.
Proof.
  revert acc. induction l as [| x l IH]; intros acc; simpl;
    [reflexivity | rewrite IH; reflexivity].
Qed.

Lemma length_cumsum (l : list float64) : length (cumsum l) = length l.
Proof.
  destruct l as [| x l]; simpl; [| rewrite length_cumsum_from]; reflexivity.
Qed.

Lemma all_zero_cumsum_from (l : list float64) :
  all_zero l -> all_zero (cumsum_from (Some 0) l).
Proof.
  induction 1 as [| x l Hx Hl IH]; simpl; [constructor |].
  subst x. simpl. replace (0 + 0) with 0 by ring.
  constructor; [reflexivity | exact IH].
Qed.

Lemma all_zero_cumsum (l : list float64) : all_zero l -> all_zero (cumsum l).
Proof.
  intros Hl. destruct Hl as [| x l Hx Hl]; simpl; [constructor |].
  subst x. constructor; [reflexivity |].
  apply all_zero_cumsum_from. exact Hl.
Qed.

(** Where the phase does not jump, [unwrap] applies no correction. *)
Lemma all_zero_correction (c dd : list float64) :
  all_zero dd ->
  all_zero (zip_with (fun c d => if f_ltb (f_abs d) (2 * pi / 2)
                                 then Some 0 else c) c dd).
Proof.
  intros Hdd. revert c. induction Hdd as [| d dd Hd Hdd IH];
    intros [| c0 c]; simpl; try constructor.
  - subst d. simpl. rewrite Rabs_R0.
    destruct (Rlt_dec 0 (2 * pi / 2)) as [_ | Hn]; [reflexivity |].
    exfalso. apply Hn. unfold pi. pose proof PI_RGT_0. lra.
  - apply IH.
Qed.

Lemma all_zero_zip_add (l l' : list float64) :
  all_zero l -> all_zero l' -> all_zero (zip_with f_add l l').
Proof.
  intros Hl. revert l'. induction Hl as [| x l Hx Hl IH];
    intros l' Hl'; destruct Hl' as [| y l' Hy Hl']; simpl;
    try constructor.
  - subst. simpl. f_equal. ring.
  - apply IH. exact Hl'.
Qed.

Lemma unwrap_all_zero (p : list float64) : all_zero p -> unwrap p = p.
Proof.
  intros Hp. apply all_zero_eq; [| exact Hp |].
  - unfold unwrap. destruct Hp as [| x p Hx Hp]; [constructor |].
    constructor; [exact Hx |].
    apply all_zero_zip_add; [exact Hp |].
    apply all_zero_cumsum, all_zero_correction, all_zero_diff.
    constructor; assumption.
  - unfold unwrap. pose proof (length_diff p) as Hdd.
    set (dd := diff p) in *. clearbody dd.
    destruct p as [| x p]; [reflexivity |].
    simpl length in *. f_equal.
    rewrite length_zip_with_min, length_cumsum.
    rewrite !length_zip_with_min, length_map, Hdd. lia.
Qed.

Lemma freqs_unity (w : list R) :
  signal.freqs [1] [1] w = (w, map (fun _ => Some C1) w).
Proof.
  unfold signal.freqs. f_equal. rewrite map_map.
  apply map_ext. intros wi. unfold polyval. simpl.
  replace (Cadd (Cmul C0 (Cmul Ci (RtoC wi))) (RtoC 1)) with C1 by c_ring.
  unfold Cdiv. rewrite Cis_zero_false by (left; simpl; lra).
  f_equal. apply C_eq; unfold Cmul, Cinv, Cnorm2, C1, RtoC; simpl; field.
Qed.

(** C7. On a non-empty grid, the Bode data of the constant unity
    response (num = den = [1], so H = 1 at every grid point) are 0 dB and
    0 degrees at every grid point. *)
Theorem bode_mag_phase_unity (w : list R) :
  w <> [] ->
  bode_mag_phase [1] [1] w =
    (map (fun _ => Some 0) w, map (fun _ => Some 0) w).
Proof.
  intros _. unfold bode_mag_phase. rewrite freqs_unity.
  assert (Hang : map angle (map (fun _ : R => Some C1) w)
                 = map (fun _ => Some 0) w).
  { rewrite map_map. apply map_ext. intros _. unfold angle, arctan2.
    simpl. destruct (Rlt_dec 0 1) as [_ | Hn]; [| exfalso; lra].
    f_equal. replace (0 / 1) with 0 by field. apply atan_0. }
  assert (Hz : all_zero (map (fun _ : R => Some 0) w)).
  { unfold all_zero. apply Forall_forall. intros x Hx.
    apply in_map_iff in Hx. destruct Hx as (_ & <- & _). reflexivity. }
  f_equal.
  - rewrite map_map. apply map_ext. intros _.
    unfold c_abs, lift1. rewrite Cabs_1. unfold log10.
    destruct (Rlt_dec 0 1) as [_ | Hn]; [| exfalso; lra].
    simpl. f_equal. rewrite ln_1. unfold Rdiv. ring.
  - rewrite Hang, (unwrap_all_zero _ Hz), map_map.
    apply map_ext. intros _. simpl.
    rewrite (proj2 (Ris_zero_false pi)) by (unfold pi; apply PI_neq0).
    f_equal. unfold Rdiv. ring.
Qed.

Lemma bode_mag_phase_unity_witness :
  [1; 10] <> [] /\
  bode_mag_phase [1] [1] [1; 10] = ([Some 0; Some 0], [Some 0; Some 0]).
Proof.
  assert (Hw : [1; 10] <> ([] : list R)) by discriminate.
  split; [exact Hw |].
  exact (bode_mag_phase_unity [1; 10] Hw).
Defined.

(* ------------------------------------------------------------------ *)
(** ** 2-D arrays *)

Lemma bdim_same (n : nat) : bdim n n = inr n.
Proof. unfold bdim. rewrite Nat.eqb_refl. reflexivity. Qed.

Lemma stretch_same {X} (d : X) (n : nat) (l : list X) :
  length l = n -> stretch d n l = l.
Proof.
  intros E. unfold stretch. rewrite E, Nat.eqb_refl. reflexivity.
Qed.

Lemma map_stretch_same (c : nat) (l : list (list C)) :
  Forall (fun r => length r = c) l -> map (stretch C0 c) l = l.
Proof.
  induction 1 as [| r l Hr Hl IH]; simpl; [reflexivity |].
  rewrite IH, stretch_same by assumption. reflexivity.
Qed.

Lemma map_repeat {X Y} (f : X -> Y) (x : X) (n : nat) :
  map f (repeat x n) = repeat (f x) n.
Proof.
  induction n as [| n IH]; simpl; [| rewrite IH]; reflexivity.
Qed.

Lemma map_const_seq {Y} (y : Y) (s n : nat) :
  map (fun _ => y) (seq s n) = repeat y n.
Proof.
  revert s. induction n as [| n IH]; intros s; simpl;
    [| rewrite IH]; reflexivity.
Qed.

Lemma dot_zeros_l (m : nat) (v : list C) : dot (repeat C0 m) v = C0.
Proof.
  unfold dot. revert v. induction m as [| m IH]; intros v; simpl.
  - reflexivity.
  - destruct v as [| b v]; simpl; [reflexivity |].
    replace (Cadd C0 (Cmul C0 b)) with C0 by c_ring.
    apply IH.
Qed.

Lemma matmul_zeros_l (p m : nat) (K : ndarray) :
  nrows K = m -> matmul (zeros p m) K = inr (zeros p (ncols K)).
Proof.
  intros E. unfold matmul, zeros. simpl. rewrite E, Nat.eqb_refl.
  do 2 f_equal. rewrite map_repeat. f_equal.
  rewrite <- (map_const_seq C0 0 (ncols K)).
  apply map_ext. intros j. apply dot_zeros_l.
Qed.

Lemma zip_sub_zeros (c : nat) (r : list C) :
  length r = c -> zip_with Csub r (repeat C0 c) = r.
Proof.
  revert c. induction r as [| x r IH]; intros [| c] E; simpl in *;
    try reflexivity; try discriminate.
  rewrite Csub_0_r, IH by congruence. reflexivity.
Qed.

Lemma zip_rows_sub_zeros (c : nat) (l : list (list C)) :
  Forall (fun r => length r = c) l ->
  zip_with (zip_with Csub) l (repeat (repeat C0 c) (length l)) = l.
Proof.
  induction 1 as [| r l Hr Hl IH]; simpl; [reflexivity |].
  rewrite IH, zip_sub_zeros by assumption. reflexivity.
Qed.

Lemma ndsub_zeros_r (a : ndarray) :
  well_shaped a -> ndsub a (zeros (nrows a) (ncols a)) = inr a.
Proof.
  intros [Hr Hc]. unfold ndsub, elementwise. simpl.
  rewrite !bdim_same. simpl.
  rewrite (map_stretch_same _ _ Hc).
  rewrite (stretch_same [] (nrows a) (rows a) Hr).
  rewrite map_repeat, (stretch_same C0) by apply repeat_length.
  rewrite stretch_same by apply repeat_length.
  rewrite <- Hr at 2. rewrite (zip_rows_sub_zeros _ _ Hc).
  destruct a; reflexivity.
Qed.

(** C9. With D the zero matrix, [Ccl = C - D @ K @ C1] evaluates
    without error and returns C itself, for every gain K and feedback
    selection C1 whose shapes fit D and C. *)
Theorem Ccl_of_zero_D (C K C1 : ndarray) (p m q n : nat) :
  well_shaped C -> nrows C = p -> ncols C = n ->
  nrows K = m -> ncols K = q ->
  nrows C1 = q -> ncols C1 = n ->
  Ccl_of C (zeros p m) K C1 = inr C.
Proof.
  intros HC Hp Hn Hm Hq Hq1 Hn1. unfold Ccl_of.
  rewrite (matmul_zeros_l p m K Hm). simpl rbind.
  rewrite Hq, (matmul_zeros_l p q C1 Hq1). simpl rbind.
  rewrite Hn1, <- Hp, <- Hn. apply ndsub_zeros_r. exact HC.
Qed.

Lemma Ccl_of_zero_D_witness :
  let C := array [[C1; C0; C0; C0]; [C0; C0; C1; C0]] in
  let K := array [[RtoC 150]] in
  let Cx := array [[C1; C0; C0; C0]] in
  Ccl_of C (zeros 2 1) K Cx = inr C.
Proof.
  intros C K Cx.
  apply (Ccl_of_zero_D C K Cx 2 1 1 4); try reflexivity.
  split; [reflexivity |]. repeat constructor.
Defined.

(* ------------------------------------------------------------------ *)
(** ** State-space frequency response *)

Lemma det_1x1 (z : C) : la.det 1 [[z]] = z.
Proof. unfold la.det, la.sign. simpl. c_ring. Qed.

Lemma inv_1x1 (z : C) (n : nat) :
  Cis_zero z = false ->
  la.inv (array [[z]]) n = (S n, inr (array [[Cinv z]])).
Proof.
  intros Hz. unfold la.inv, array, mbind, tick, mret, mraise.
  cbn [nrows ncols rows length hd Nat.eqb negb].
  rewrite det_1x1, Hz.
  unfold la.adjugate_over, la.minor, la.sign. simpl.
  replace (Cmul (Cmul C1 C1) (Cinv z)) with (Cinv z) by c_ring.
  reflexivity.
Qed.

Lemma Cmul_inv_r (z : C) : Cis_zero z = false -> Cmul z (Cinv z) = C1.
Proof.
  intros Hz.
  assert (Hn : Cnorm2 z <> 0).
  { unfold Cnorm2. intros E.
    assert (H1 : fst z = 0) by nra.
    assert (H2 : snd z = 0) by nra.
    unfold Cis_zero in Hz.
    rewrite (proj2 (Ris_zero_true _) H1), (proj2 (Ris_zero_true _) H2) in Hz.
    discriminate Hz. }
  apply C_eq; unfold Cmul, Cinv, C1, RtoC; simpl; unfold Cnorm2 in *;
    field; exact Hn.
Qed.

(** The cofactor formula on 2 by 2 data: a right inverse whenever the
    determinant ad - bc is non-zero. *)
Lemma inv_2x2_right_inverse (a b c d : C) (n : nat) :
  Cis_zero (Csub (Cmul a d) (Cmul b c)) = false ->
  exists X, la.inv (array [[a; b]; [c; d]]) n = (S n, inr X) /\
            matmul (array [[a; b]; [c; d]]) X = inr (eye 2).
Proof.
  intros Hz. pose proof (Cmul_inv_r _ Hz) as Hi.
  unfold la.inv, array, mbind, tick, mret, mraise.
  cbn [nrows ncols rows length hd Nat.eqb negb].
  replace (la.det 2 [[a; b]; [c; d]]) with (Csub (Cmul a d) (Cmul b c))
    by (unfold la.det, la.sign, la.drop_nth; simpl; c_ring).
  rewrite Hz. eexists. split; [reflexivity |].
  unfold la.adjugate_over, la.minor, la.det, la.drop_nth.
  unfold matmul, eye, dot, column. simpl. unfold la.sign. simpl.
  set (D := Csub (Cmul a d) (Cmul b c)) in *.
  set (i := Cinv D) in *. clearbody i.
  match goal with
  | |- inr (mk_ndarray _ _ [[?e11; ?e12]; [?e21; ?e22]]) = _ =>
      replace e11 with (Cmul D i) by (unfold D; c_ring);
      replace e12 with C0 by c_ring;
      replace e21 with C0 by c_ring;
      replace e22 with (Cmul D i) by (unfold D; c_ring)
  end.
  rewrite Hi. reflexivity.
Qed.

Lemma jw_plus_1 (wi : R) : Cadd (Cmul Ci (RtoC wi)) C1 = (1, wi).
Proof. c_ring. Qed.

Lemma ndsub_shape_4 (z : C) (A : ndarray) :
  nrows A = 4%nat -> ncols A = 4%nat ->
  exists d, ndsub (scale z (eye 4)) A = inr (mk_ndarray 4 4 d).
Proof.
  intros Hr Hc. unfold ndsub, elementwise. simpl.
  rewrite Hr, Hc. simpl. eexists. reflexivity.
Qed.

Lemma mbind_inr {X Y} (c : M X) (k : X -> M Y) (n n' : nat) (a : X) :
  c n = (n', inr a) -> mbind c k n = k a n'.
Proof. intros E. unfold mbind. rewrite E. reflexivity. Qed.

Lemma mbind_inl {X Y} (c : M X) (k : X -> M Y) (n n' : nat) (e : exn) :
  c n = (n', inl e) -> mbind c k n = (n', inl e).
Proof. intros E. unfold mbind. rewrite E. reflexivity. Qed.

Lemma matmul_cases (a b : ndarray) :
  matmul a b = inl ValueError \/
  exists c, matmul a b = inr c /\ nrows c = nrows a /\ ncols c = ncols b.
Proof.
  unfold matmul. destruct (ncols a =? nrows b)%nat.
  - right. eexists. repeat split.
  - left. reflexivity.
Qed.

Lemma matmul_mismatch (a b : ndarray) :
  ncols a <> nrows b -> matmul a b = inl ValueError.
Proof.
  intros Hne. unfold matmul.
  destruct (Nat.eqb_spec (ncols a) (nrows b)); [contradiction | reflexivity].
Qed.

(** On a square array the inversion is started; it reports a singular
    matrix exactly when the determinant vanishes. *)
Lemma inv_square_cases (a : ndarray) (n : nat) :
  nrows a = ncols a ->
  (Cis_zero (la.det (nrows a) (rows a)) = true /\
   la.inv a n = (S n, inl LinAlgError)) \/
  (Cis_zero (la.det (nrows a) (rows a)) = false /\
   exists X, la.inv a n = (S n, inr X) /\
             nrows X = nrows a /\ ncols X = nrows a).
Proof.
  intros Hsq. unfold la.inv. rewrite <- Hsq, Nat.eqb_refl. cbn [negb].
  unfold mbind, tick.
  destruct (Cis_zero (la.det (nrows a) (rows a))).
  - left. split; reflexivity.
  - right. split; [reflexivity |].
    eexists. split; [reflexivity |]. split; reflexivity.
Qed.

(** Once [1j*wi*np.eye(4) - A] is a 4 by 4 array, a C that is not four
    columns wide or a B that is not four rows high makes the grid point
    fail after the inversion has run: in the inversion when the matrix
    is singular, in a matrix product otherwise. *)
Lemma response_at_bad_product
  (A B C D : ndarray) (wi : R) (n : nat) (d : list (list Cplx.C)) :
  ndsub (scale (Cmul Ci (RtoC wi)) (eye 4)) A = inr (mk_ndarray 4 4 d) ->
  ncols C <> 4%nat \/ nrows B <> 4%nat ->
  response_at A B C D wi n =
    (S n, inl (if Cis_zero (la.det 4 d) then LinAlgError else ValueError)).
Proof.
  intros Hd Hbad. unfold response_at. rewrite Hd.
  rewrite (mbind_inr _ _ n n (mk_ndarray 4 4 d)) by reflexivity.
  destruct (inv_square_cases (mk_ndarray 4 4 d) n eq_refl)
    as [[Hz E] | [Hz (X & E & Hr & Hc)]]; cbn [nrows ncols rows] in *;
    rewrite Hz.
  - apply mbind_inl. exact E.
  - rewrite (mbind_inr _ _ n (S n) X E).
    destruct (matmul_cases C X) as [EC | (CX & EC & _ & HcCX)]; rewrite EC.
    + apply mbind_inl. reflexivity.
    + erewrite mbind_inr by reflexivity.
      apply mbind_inl. unfold lift. f_equal.
      apply matmul_mismatch. rewrite HcCX, Hc.
      destruct Hbad as [HC | HB]; [| auto].
      exfalso. apply HC.
      unfold matmul in EC. rewrite Hr in EC.
      destruct (Nat.eqb_spec (ncols C) 4); [assumption | discriminate EC].
Qed.

Lemma response_at_mismatched_B (A B C D : ndarray) (wi : R) (n : nat) :
  nrows A = 4%nat -> ncols A = 4%nat -> nrows B <> 4%nat ->
  response_at A B C D wi n = (S n, inl ValueError) \/
  response_at A B C D wi n = (S n, inl LinAlgError).
Proof.
  intros Hr Hc HB.
  destruct (ndsub_shape_4 (Cmul Ci (RtoC wi)) A Hr Hc) as [d Hd].
  rewrite (response_at_bad_product A B C D wi n d Hd (or_intror HB)).
  destruct (Cis_zero (la.det 4 d)); [right | left]; reflexivity.
Qed.

Lemma Cmul_pair (a b c d : R) :
  Cmul (a, b) (c, d) = (a * c - b * d, a * d + b * c).
Proof. reflexivity. Qed.

Lemma Cadd_pair (a b c d : R) : Cadd (a, b) (c, d) = (a + c, b + d).
Proof. reflexivity. Qed.

(** The entries of [1j*w*np.eye(n) - A]. *)
Lemma jw_diag (wi x : R) :
  Csub (Cmul (Cmul Ci (RtoC wi)) C1) (RtoC x) = (- x, wi).
Proof. c_ring. Qed.

Lemma jw_off (wi x : R) :
  Csub (Cmul (Cmul Ci (RtoC wi)) C0) (RtoC x) = (- x, 0).
Proof. c_ring. Qed.

(** C3, as stated, fails.  A four-state, two-output system with a
    three-row B, on the grid [1]: the inversion at w=1 has run (the
    determinant of jI - A is -2+3j) when the product with B raises
    numpy's ValueError. *)
Lemma frequency_response_mismatch_after_solve :
  let r := RtoC in
  let sysA := array [[r 0; r 1; r 0; r 0];
                     [r (-1); r (-1); r 1; r 0];
                     [r 0; r 0; r 0; r 1];
                     [r 1; r 0; r (-4); r (-1)]] in
  let badB := array [[r 0]; [r 1]; [r 0]] in
  let sysC := array [[r 1; r 0; r 0; r 0]; [r 0; r 0; r 1; r 0]] in
  let sysD := zeros 2 1 in
  frequency_response sysA badB sysC sysD [1] 0%nat
    = (1%nat, inl ValueError) /\
  ~ raises_before_any_solve (frequency_response sysA badB sysC sysD [1]).
Proof.
  intros r sysA badB sysC sysD.
  assert (E : frequency_response sysA badB sysC sysD [1] 0%nat
              = (1%nat, inl ValueError)).
  { unfold frequency_response. cbn [sweep]. apply mbind_inl.
    erewrite response_at_bad_product;
      [| reflexivity | right; simpl; lia].
    unfold sysA, r.
    cbv [array nrows ncols rows scale eye stretch zip_with map seq
         length hd Nat.eqb].
    rewrite !jw_diag, !jw_off.
    match goal with
    | |- context [la.det ?n ?d] =>
        replace (la.det n d) with ((-2, 3) : Cplx.C)
    end.
    - rewrite Cis_zero_false by (left; simpl; lra). reflexivity.
    - unfold la.det, la.sign, la.drop_nth. simpl.
      unfold C1, C0, RtoC.
      repeat (rewrite Cmul_pair || rewrite Cadd_pair).
      f_equal; ring. }
  split; [exact E |].
  intros [e He]. rewrite E in He. discriminate He.
Qed.

(** C3, amended.  With the four-state A the sweep is written for and
    a B whose row count is not 4, a call on a non-empty grid raises at
    the first grid point, after the inversion at that point has been
    started: numpy's ValueError from a matrix product, or LinAlgError
    from the inversion of a singular jwI - A; no output is produced.
    On an empty grid nothing is raised and both arrays are empty. *)
Theorem frequency_response_mismatched_B
  (A B C D : ndarray) (wi : R) (w : list R) :
  nrows A = 4%nat -> ncols A = 4%nat -> nrows B <> 4%nat ->
  (frequency_response A B C D (wi :: w) 0%nat = (1%nat, inl ValueError) \/
   frequency_response A B C D (wi :: w) 0%nat = (1%nat, inl LinAlgError)) /\
  frequency_response A B C D [] 0%nat = (0%nat, inr ([], [])).
Proof.
  intros Hr Hc HB. split; [| reflexivity].
  unfold frequency_response. cbn [sweep].
  destruct (response_at_mismatched_B A B C D wi 0 Hr Hc HB) as [E | E];
    [left | right]; apply mbind_inl; exact E.
Qed.

Lemma frequency_response_mismatched_B_witness :
  let r := RtoC in
  let sysA := array [[r 0; r 1; r 0; r 0];
                     [r (-1); r (-1); r 1; r 0];
                     [r 0; r 0; r 0; r 1];
                     [r 1; r 0; r (-4); r (-1)]] in
  let badB := array [[r 0]; [r 1]; [r 0]] in
  let sysC := array [[r 1; r 0; r 0; r 0]; [r 0; r 0; r 1; r 0]] in
  let sysD := zeros 2 1 in
  nrows sysA = 4%nat /\ ncols sysA = 4%nat /\ nrows badB <> 4%nat /\
  ((frequency_response sysA badB sysC sysD [1; 10] 0%nat
      = (1%nat, inl ValueError) \/
    frequency_response sysA badB sysC sysD [1; 10] 0%nat
      = (1%nat, inl LinAlgError)) /\
   frequency_response sysA badB sysC sysD [] 0%nat = (0%nat, inr ([], []))).
Proof.
  intros r sysA badB sysC sysD.
  assert (Hr : nrows sysA = 4%nat) by reflexivity.
  assert (Hc : ncols sysA = 4%nat) by reflexivity.
  assert (HB : nrows badB <> 4%nat) by (simpl; lia).
  split; [exact Hr | split; [exact Hc | split; [exact HB |]]].
  exact (frequency_response_mismatched_B sysA badB sysC sysD 1 [10]
           Hr Hc HB).
Defined.

(* ================================================================== *)
(** * Further properties *)

(* ------------------------------------------------------------------ *)
(** ** Isolator models: alignment, limits and degenerate samples *)

Lemma Cmul_comm (a b : C) : Cmul a b = Cmul b a.
Proof. c_ring. Qed.

Lemma c_mul_comm (x y : complex128) : c_mul x y = c_mul y x.
Proof.
  destruct x, y; simpl; try reflexivity. rewrite Cmul_comm. reflexivity.
Qed.

Lemma nth_error_map_some {X Y} (f : X -> Y) (l : list X) (i : nat) (x : X) :
  nth_error l i = Some x -> nth_error (map f l) i = Some (f x).
Proof.
  intros E. rewrite nth_error_map, E. reflexivity.
Qed.

Lemma two_pi_f0_neq (f0 : R) : f0 <> 0 -> 2 * pi * f0 <> 0.
Proof.
  intros Hf. unfold pi. pose proof PI_RGT_0 as Hpi.
  intros E. apply Hf.
  apply (Rmult_eq_reg_l (2 * PI)); [| lra].
  rewrite E. ring.
Qed.

Lemma Cis_zero_true (a : C) : Cis_zero a = true <-> fst a = 0 /\ snd a = 0.
Proof.
  unfold Cis_zero. rewrite andb_true_iff, !Ris_zero_true. reflexivity.
Qed.

Lemma Cdiv_self (z : C) : Cis_zero z = false -> Cdiv z z = Some C1.
Proof.
  intros Hz. unfold Cdiv. rewrite Hz, (Cmul_inv_r z Hz). reflexivity.
Qed.

Lemma Cdiv_real (z : C) (q : R) :
  q <> 0 -> Cdiv z (RtoC q) = Some (fst z / q, snd z / q).
Proof.
  intros Hq. unfold Cdiv.
  rewrite Cis_zero_false by (left; exact Hq).
  f_equal. apply C_eq; unfold Cmul, Cinv, Cnorm2, RtoC; simpl; field; exact Hq.
Qed.

(** The denominator of one pendulum sample. *)
Lemma pend_den (wi w0 Q : R) :
  Q <> 0 ->
  c_add (Some (RtoC (w0 ^ 2 - wi ^ 2)))
        (Cdiv (Cmul (Cmul Ci (RtoC wi)) (RtoC w0)) (RtoC Q))
  = Some (w0 ^ 2 - wi ^ 2, wi * w0 / Q).
Proof.
  intros HQ. rewrite (Cdiv_real _ Q HQ). cbn [c_add lift2]. f_equal.
  apply C_eq; unfold Cadd, Cmul, Ci, RtoC; simpl; field; exact HQ.
Qed.

Lemma pend_den_nonzero (wi w0 Q : R) :
  w0 <> 0 -> Q <> 0 -> Cis_zero (w0 ^ 2 - wi ^ 2, wi * w0 / Q) = false.
Proof.
  intros Hw0 HQ. destruct (Req_dec_T wi 0) as [E | E].
  - apply Cis_zero_false. left. simpl. subst wi. nra.
  - apply Cis_zero_false. right. simpl. unfold Rdiv.
    apply Rmult_integral_contrapositive_currified.
    + apply Rmult_integral_contrapositive_currified; assumption.
    + apply Rinv_neq_0_compat. exact HQ.
Qed.

(** X1. Every isolator response has one sample per grid point, also
    after any number of cascaded pendulum stages. *)
Theorem isolator_responses_follow_grid
  (w : list R) (f0 k phi Q : option R) (f0_list : list R) :
  length (H_ip_basic w f0 k phi) = length w /\
  length (H_ip_countermass w f0 k phi) = length w /\
  length (H_pend_single w f0 Q) = length w /\
  length (H_pend_cascade w f0_list Q) = length w.
Proof.
  repeat split; try (unfold H_ip_basic, H_ip_countermass, H_pend_single;
                     apply length_map).
  unfold H_pend_cascade.
  assert (G : forall H0, length H0 = length w ->
            length (fold_left
                      (fun H f1 =>
                         zip_with c_mul H
                           (H_pend_single w (Some f1) (Some (kw 50 Q))))
                      f0_list H0) = length w).
  { induction f0_list as [| f1 l IH]; intros H0 E; simpl; [exact E |].
    apply IH. rewrite length_zip_with; [exact E |].
    rewrite length_H_pend_single. exact E. }
  apply G, length_ones_like.
Qed.

(** X2. Horizontal pendulum with a non-zero resonance and quality
    factor: the response is finite at every grid point (the damping
    term keeps the denominator away from zero), it is exactly 1 where
    the grid holds w = 0, and exactly -jQ where it holds w = w0. *)
Theorem H_pend_single_finite_dc_peak (w : list R) (f0 Q : R) :
  f0 <> 0 -> Q <> 0 ->
  Forall (fun h => h <> None) (H_pend_single w (Some f0) (Some Q)) /\
  (forall i, nth_error w i = Some 0 ->
             nth_error (H_pend_single w (Some f0) (Some Q)) i
             = Some (Some C1)) /\
  (forall i, nth_error w i = Some (2 * pi * f0) ->
             nth_error (H_pend_single w (Some f0) (Some Q)) i
             = Some (Some (0, - Q))).
Proof.
  intros Hf HQ. pose proof (two_pi_f0_neq f0 Hf) as Hw0.
  unfold H_pend_single. cbn [kw].
  set (w0 := 2 * pi * f0) in *.
  split; [| split].
  - apply Forall_forall. intros h Hh. apply in_map_iff in Hh.
    destruct Hh as (wi & <- & _).
    rewrite (pend_den wi w0 Q HQ). cbn [c_div]. unfold Cdiv.
    rewrite (pend_den_nonzero wi w0 Q Hw0 HQ). discriminate.
  - intros i Hi.
    rewrite (nth_error_map_some _ _ _ _ Hi).
    rewrite (pend_den 0 w0 Q HQ). cbn [c_div]. do 2 f_equal.
    replace (w0 ^ 2 - 0 ^ 2, 0 * w0 / Q) with (RtoC (w0 ^ 2))
      by (apply C_eq; unfold RtoC; simpl; field; exact HQ).
    apply Cdiv_self, Cis_zero_false. left. simpl. nra.
  - intros i Hi.
    rewrite (nth_error_map_some _ _ _ _ Hi).
    rewrite (pend_den w0 w0 Q HQ). cbn [c_div]. unfold Cdiv.
    rewrite (pend_den_nonzero w0 w0 Q Hw0 HQ). do 3 f_equal.
    clearbody w0.
    assert (Hw2 : 0 < w0 * w0) by nra.
    assert (Hw4 : 0 < w0 * w0 * (w0 * w0)) by nra.
    apply C_eq; unfold Cmul, Cinv, Cnorm2, RtoC; simpl; field;
      (split; [exact HQ | apply Rgt_not_eq; nra]).
Qed.

Lemma H_pend_single_finite_dc_peak_witness :
  (1/2 <> 0) /\ (50 <> 0) /\
  Forall (fun h => h <> None)
         (H_pend_single [0; 2 * pi * (1/2)] (Some (1/2)) (Some 50)) /\
  nth_error (H_pend_single [0; 2 * pi * (1/2)] (Some (1/2)) (Some 50)) 0
    = Some (Some C1) /\
  nth_error (H_pend_single [0; 2 * pi * (1/2)] (Some (1/2)) (Some 50)) 1
    = Some (Some (0, - 50)).
Proof.
  assert (Hf : 1/2 <> 0) by lra.
  assert (HQ : 50 <> 0) by lra.
  destruct (H_pend_single_finite_dc_peak [0; 2 * pi * (1/2)] (1/2) 50 Hf HQ)
    as (H1 & H2 & H3).
  split; [exact Hf | split; [exact HQ | split; [exact H1 | split]]].
  - apply (H2 0%nat). reflexivity.
  - apply (H3 1%nat). reflexivity.
Defined.

(** X3. With Q = 0 the damping term divides by zero: numpy raises
    nothing and every sample of the pendulum response is inf/NaN,
    whatever the grid and the resonance. *)
Theorem H_pend_single_zero_Q (w : list R) (f0 : option R) :
  H_pend_single w f0 (Some 0) = map (fun _ => None) w.
Proof.
  unfold H_pend_single. cbn [kw]. apply map_ext. intros wi.
  unfold Cdiv at 1.
  rewrite (proj2 (Cis_zero_true (RtoC 0))) by (split; reflexivity).
  reflexivity.
Qed.

(** The shared denominator [w0^2 (1 + j phi) - w^2] of the inverted
    pendulum. *)
Lemma ip_den (w0 phi wi : R) :
  Csub (Cmul (RtoC (w0 ^ 2)) (Cadd C1 (Cmul Ci (RtoC phi)))) (RtoC (wi ^ 2))
  = (w0 ^ 2 - wi ^ 2, w0 ^ 2 * phi).
Proof. c_ring. Qed.

(** X4. The undamped inverted pendulum (phi = 0) sampled exactly at
    its resonance w = w0 divides by zero: both variants return an
    inf/NaN sample there, without raising. *)
Theorem H_ip_undamped_resonance
  (w : list R) (i : nat) (f0 : R) (c : option R) :
  nth_error w i = Some (2 * pi * f0) ->
  nth_error (H_ip_basic w (Some f0) c (Some 0)) i = Some None /\
  nth_error (H_ip_countermass w (Some f0) c (Some 0)) i = Some None.
Proof.
  intros Hi. unfold H_ip_basic, H_ip_countermass. cbn [kw].
  rewrite !(nth_error_map_some _ _ _ _ Hi).
  rewrite !ip_den. unfold Cdiv.
  rewrite (proj2 (Cis_zero_true _)) by (split; simpl; ring).
  split; reflexivity.
Qed.

Lemma H_ip_undamped_resonance_witness :
  nth_error [1; 2 * pi * (1/10)] 1 = Some (2 * pi * (1/10)) /\
  nth_error (H_ip_basic [1; 2 * pi * (1/10)] (Some (1/10)) None (Some 0)) 1
    = Some None /\
  nth_error (H_ip_countermass [1; 2 * pi * (1/10)] (Some (1/10)) None
               (Some 0)) 1 = Some None.
Proof.
  assert (Hi : nth_error [1; 2 * pi * (1/10)] 1 = Some (2 * pi * (1/10)))
    by reflexivity.
  split; [exact Hi |].
  exact (H_ip_undamped_resonance [1; 2 * pi * (1/10)] 1 (1/10) None Hi).
Defined.

(** X5. With a non-zero resonance and a non-zero loss angle the
    denominator w0^2 (1 + j phi) - w^2 of both inverted-pendulum
    variants is never zero, so that no grid point divides by zero: in
    exact real arithmetic every sample is finite, whatever the coupling
    coefficient.  (Rounding and overflow of doubles, such as w**2
    overflowing for a huge w, are not modelled.) *)
Theorem H_ip_damped_finite (w : list R) (f0 phi : R) (c : option R) :
  f0 <> 0 -> phi <> 0 ->
  Forall (fun h => h <> None) (H_ip_basic w (Some f0) c (Some phi)) /\
  Forall (fun h => h <> None) (H_ip_countermass w (Some f0) c (Some phi)).
Proof.
  intros Hf Hphi. pose proof (two_pi_f0_neq f0 Hf) as Hw0.
  assert (G : forall wi num,
             Cdiv num
               (Csub (Cmul (RtoC ((2 * pi * f0) ^ 2))
                           (Cadd C1 (Cmul Ci (RtoC phi))))
                     (RtoC (wi ^ 2))) <> None).
  { intros wi num. rewrite ip_den. unfold Cdiv.
    rewrite Cis_zero_false; [discriminate |].
    right. simpl.
    apply Rmult_integral_contrapositive_currified; [| exact Hphi].
    apply Rmult_integral_contrapositive_currified; [exact Hw0 |].
    rewrite Rmult_1_r. exact Hw0. }
  unfold H_ip_basic, H_ip_countermass. cbn [kw].
  split; apply Forall_forall; intros h Hh; apply in_map_iff in Hh;
    destruct Hh as (wi & <- & _); apply G.
Qed.

Lemma H_ip_damped_finite_witness :
  (1/10 <> 0) /\ (1/10000 <> 0) /\
  Forall (fun h => h <> None)
         (H_ip_basic [0; 1] (Some (1/10)) None (Some (1/10000))) /\
  Forall (fun h => h <> None)
         (H_ip_countermass [0; 1] (Some (1/10)) None (Some (1/10000))).
Proof.
  assert (Hf : 1/10 <> 0) by lra.
  assert (Hp : 1/10000 <> 0) by lra.
  split; [exact Hf | split; [exact Hp |]].
  exact (H_ip_damped_finite [0; 1] (1/10) (1/10000) None Hf Hp).
Defined.



(** X7. Isolation above resonance: for w > w0 > 0 and any non-zero Q
    the pendulum response is finite and its magnitude is at most
    w0^2 / (w^2 - w0^2), so it falls off at least as fast as the
    undamped roll-off. *)
Theorem H_pend_single_above_resonance
  (w : list R) (i : nat) (wi f0 Q : R) :
  0 < f0 -> Q <> 0 -> 2 * pi * f0 < wi -> nth_error w i = Some wi ->
  exists h : C,
    nth_error (H_pend_single w (Some f0) (Some Q)) i = Some (Some h) /\
    Cabs h <= (2 * pi * f0) ^ 2 / (wi ^ 2 - (2 * pi * f0) ^ 2).
Proof.
  intros Hf HQ Hwi Hi.
  assert (Hw0 : 0 < 2 * pi * f0).
  { unfold pi. pose proof PI_RGT_0. nra. }
  unfold H_pend_single. cbn [kw].
  rewrite (nth_error_map_some _ _ _ _ Hi).
  set (w0 := 2 * pi * f0) in *. clearbody w0.
  rewrite (pend_den wi w0 Q HQ). cbn [c_div]. unfold Cdiv.
  rewrite (pend_den_nonzero wi w0 Q (Rgt_not_eq _ _ Hw0) HQ).
  eexists. split; [reflexivity |].
  set (den := (w0 ^ 2 - wi ^ 2, wi * w0 / Q)).
  assert (Hgap : 0 < wi ^ 2 - w0 ^ 2) by nra.
  assert (Hden : (wi ^ 2 - w0 ^ 2) ^ 2 <= Cnorm2 den).
  { unfold den, Cnorm2. simpl.
    pose proof (pow2_ge_0 (wi * w0 / Q)) as Hsq. simpl in Hsq. nra. }
  assert (Hpos : 0 < (wi ^ 2 - w0 ^ 2) ^ 2) by (apply pow_lt; exact Hgap).
  assert (Hn : Cnorm2 (Cmul (RtoC (w0 ^ 2)) (Cinv den))
               = (w0 ^ 2) ^ 2 * / Cnorm2 den).
  { rewrite Cnorm2_mul, Cnorm2_inv by lra.
    unfold Cnorm2, RtoC. simpl. ring. }
  unfold Cabs. rewrite Hn.
  assert (Hb : 0 <= w0 ^ 2 / (wi ^ 2 - w0 ^ 2)).
  { apply Rlt_le, Rdiv_lt_0_compat; [apply pow_lt; exact Hw0 | exact Hgap]. }
  rewrite <- (sqrt_pow2 _ Hb). apply sqrt_le_1_alt.
  replace ((w0 ^ 2 / (wi ^ 2 - w0 ^ 2)) ^ 2)
    with ((w0 ^ 2) ^ 2 * / (wi ^ 2 - w0 ^ 2) ^ 2) by (field; lra).
  apply Rmult_le_compat_l; [apply pow2_ge_0 |].
  apply Rinv_le_contravar; assumption.
Qed.

Lemma H_pend_single_above_resonance_witness :
  0 < 1/2 /\ 50 <> 0 /\ 2 * pi * (1/2) < 10 /\
  nth_error [1; 10] 1 = Some 10 /\
  exists h : C,
    nth_error (H_pend_single [1; 10] (Some (1/2)) (Some 50)) 1
      = Some (Some h) /\
    Cabs h <= (2 * pi * (1/2)) ^ 2 / (10 ^ 2 - (2 * pi * (1/2)) ^ 2).
Proof.
  assert (Hf : 0 < 1/2) by lra.
  assert (HQ : 50 <> 0) by lra.
  assert (Hw : 2 * pi * (1/2) < 10).
  { unfold pi. pose proof PI_4. lra. }
  assert (Hi : nth_error [1; 10] 1 = Some 10) by reflexivity.
  split; [exact Hf | split; [exact HQ | split; [exact Hw | split;
    [exact Hi |]]]].
  exact (H_pend_single_above_resonance [1; 10] 1 10 (1/2) 50 Hf HQ Hw Hi).
Defined.

(* ------------------------------------------------------------------ *)
(** ** Cascades as products of stages *)

Lemma zip_c_mul_assoc (a b c : list complex128) :
  zip_with c_mul (zip_with c_mul a b) c =
  zip_with c_mul a (zip_with c_mul b c).
Proof.
  revert b c. induction a as [| x a IH]; intros [| y b] [| z c]; simpl;
    try reflexivity.
  rewrite IH, c_mul_assoc. reflexivity.
Qed.

Lemma zip_c_mul_swap (a b c : list complex128) :
  zip_with c_mul (zip_with c_mul a b) c =
  zip_with c_mul (zip_with c_mul a c) b.
Proof.
  revert b c. induction a as [| x a IH]; intros [| y b] [| z c]; simpl;
    try reflexivity.
  rewrite IH. f_equal.
  rewrite !c_mul_assoc, (c_mul_comm y z). reflexivity.
Qed.

Lemma zip_with_ones_like_r {A} (w : list A) (H : list complex128) :
  length H = length w -> zip_with c_mul H (ones_like w) = H.
Proof.
  revert w. induction H as [| h H IH]; intros [| a w] E; simpl in *;
    try reflexivity; try discriminate.
  rewrite IH by congruence.
  destruct h as [z |]; simpl; [rewrite Cmul_1_r |]; reflexivity.
Qed.

Section CascadeFold.
Context {X : Type} (w : list R) (S : X -> list complex128).
Hypothesis S_length : forall x, length (S x) = length w.

Lemma cascade_fold_length (l : list X) (H0 : list complex128) :
  length H0 = length w ->
  length (fold_left (fun H x => zip_with c_mul H (S x)) l H0) = length w.
Proof.
  revert H0. induction l as [| x l IH]; intros H0 E; simpl; [exact E |].
  apply IH. rewrite length_zip_with; [exact E |].
  rewrite S_length. exact E.
Qed.

Lemma cascade_fold_start (l : list X) (H0 : list complex128) :
  length H0 = length w ->
  fold_left (fun H x => zip_with c_mul H (S x)) l H0 =
  zip_with c_mul H0
    (fold_left (fun H x => zip_with c_mul H (S x)) l (ones_like w)).
Proof.
  revert H0. induction l as [| x l IH]; intros H0 E; simpl.
  - symmetry. apply zip_with_ones_like_r. exact E.
  - rewrite IH.
    2:{ rewrite length_zip_with; [exact E |]. rewrite S_length. exact E. }
    rewrite (IH (zip_with c_mul (ones_like w) (S x))).
    2:{ rewrite length_zip_with; [apply length_ones_like |].
        rewrite S_length. apply length_ones_like. }
    rewrite (zip_with_ones_like_l w (S x)) by (symmetry; apply S_length).
    apply zip_c_mul_assoc.
Qed.

Lemma cascade_fold_app (l1 l2 : list X) :
  fold_left (fun H x => zip_with c_mul H (S x)) (l1 ++ l2) (ones_like w) =
  zip_with c_mul
    (fold_left (fun H x => zip_with c_mul H (S x)) l1 (ones_like w))
    (fold_left (fun H x => zip_with c_mul H (S x)) l2 (ones_like w)).
Proof.
  rewrite fold_left_app.
  apply cascade_fold_start, cascade_fold_length, length_ones_like.
Qed.

Lemma cascade_fold_perm (l l' : list X) :
  Permutation l l' ->
  forall H0, fold_left (fun H x => zip_with c_mul H (S x)) l H0 =
             fold_left (fun H x => zip_with c_mul H (S x)) l' H0.
Proof.
  induction 1 as [| x l l' _ IH | x y l | l l' l'' _ IH1 _ IH2];
    intros H0; simpl.
  - reflexivity.
  - apply IH.
  - rewrite zip_c_mul_swap. reflexivity.
  - rewrite IH1. apply IH2.
Qed.

End CascadeFold.

(** X8. Stacking pendulum stages multiplies responses: the cascade
    over the concatenation of two lists of resonances is the
    element-wise product of the two cascades. *)
Theorem H_pend_cascade_app (w : list R) (l1 l2 : list R) (Q : option R) :
  H_pend_cascade w (l1 ++ l2) Q =
  zip_with c_mul (H_pend_cascade w l1 Q) (H_pend_cascade w l2 Q).
Proof.
  unfold H_pend_cascade.
  apply (cascade_fold_app w
           (fun f0 => H_pend_single w (Some f0) (Some (kw 50 Q)))).
  intros f0. apply length_H_pend_single.
Qed.

(** X9. The order of the stages does not matter: two lists of
    resonances that are permutations of each other give the same
    pendulum cascade. *)
Theorem H_pend_cascade_perm (w : list R) (l l' : list R) (Q : option R) :
  Permutation l l' -> H_pend_cascade w l Q = H_pend_cascade w l' Q.
Proof.
  intros Hp. unfold H_pend_cascade.
  apply (cascade_fold_perm
           (fun f0 => H_pend_single w (Some f0) (Some (kw 50 Q))) l l' Hp).
Qed.

Lemma H_pend_cascade_perm_witness :
  Permutation [3/10; 1/2] [1/2; 3/10] /\
  H_pend_cascade [1; 10] [3/10; 1/2] None =
  H_pend_cascade [1; 10] [1/2; 3/10] None.
Proof.
  assert (Hp : Permutation [3/10; 1/2] [1/2; 3/10]) by apply perm_swap.
  split; [exact Hp |].
  exact (H_pend_cascade_perm [1; 10] _ _ None Hp).
Defined.

(** The GAS stage as a plain array, for a non-zero payload mass. *)
Lemma H_gas_single_ok (w : list R) (M m phi gamma : R) :
  M <> 0 ->
  exists S : R -> list complex128,
    forall f0,
      H_gas_single w (Some f0) (Some M) (Some m) (Some phi) (Some gamma)
        = inr (S f0) /\
      length (S f0) = length w.
Proof.
  intros HM. unfold H_gas_single, float_div. cbn [kw].
  rewrite (proj2 (Ris_zero_false M) HM). cbn [rbind].
  eexists (fun f0 => _). intros f0. split; [reflexivity |].
  apply length_map.
Qed.

Lemma H_gas_cascade_fold (w : list R) (S : R -> list complex128)
  (M m phi gamma : R) (l : list R) :
  (forall f0,
      H_gas_single w (Some f0) (Some M) (Some m) (Some phi) (Some gamma)
        = inr (S f0)) ->
  forall H0,
    fold_left
      (fun acc f0 =>
         (H <~ acc ;;
          Hs <~ H_gas_single w (Some f0) (Some M) (Some m) (Some phi)
                  (Some gamma) ;;
          inr (zip_with c_mul H Hs))%np)
      l (inr H0)
    = inr (fold_left (fun H f0 => zip_with c_mul H (S f0)) l H0).
Proof.
  intros HS. induction l as [| f0 l IH]; intros H0; simpl; [reflexivity |].
  rewrite HS. cbn [rbind]. apply IH.
Qed.

(** X10. GAS cascade with a non-zero payload mass: no exception for
    any list of resonances, one sample per grid point, and the cascade
    over a concatenation is the element-wise product of the cascades
    over its parts. *)
Theorem H_gas_cascade_app
  (w : list R) (l1 l2 : list R) (M : R) (m phi gamma : option R) :
  M <> 0 ->
  exists H1 H2 : list complex128,
    H_gas_cascade w l1 (Some M) m phi gamma = inr H1 /\
    H_gas_cascade w l2 (Some M) m phi gamma = inr H2 /\
    length H1 = length w /\ length H2 = length w /\
    H_gas_cascade w (l1 ++ l2) (Some M) m phi gamma
      = inr (zip_with c_mul H1 H2).
Proof.
  intros HM. unfold H_gas_cascade. cbn [kw].
  destruct (H_gas_single_ok w M (kw 11 m) (kw (1/1000) phi)
              (kw (5/100) gamma) HM) as [S HS].
  assert (HS1 : forall f0, H_gas_single w (Some f0) (Some M)
                             (Some (kw 11 m)) (Some (kw (1/1000) phi))
                             (Some (kw (5/100) gamma)) = inr (S f0))
    by (intros f0; apply HS).
  assert (HS2 : forall f0, length (S f0) = length w)
    by (intros f0; apply HS).
  rewrite !(H_gas_cascade_fold w S M _ _ _ _ HS1).
  do 2 eexists. split; [reflexivity |]. split; [reflexivity |].
  split; [| split].
  - apply cascade_fold_length; [exact HS2 | apply length_ones_like].
  - apply cascade_fold_length; [exact HS2 | apply length_ones_like].
  - f_equal. apply cascade_fold_app. exact HS2.
Qed.

Lemma H_gas_cascade_app_witness :
  350 <> 0 /\
  exists H1 H2 : list complex128,
    H_gas_cascade [1; 10] [2/10] (Some 350) None None None = inr H1 /\
    H_gas_cascade [1; 10] [3/10; 4/10] (Some 350) None None None = inr H2 /\
    length H1 = length [1; 10] /\ length H2 = length [1; 10] /\
    H_gas_cascade [1; 10] ([2/10] ++ [3/10; 4/10]) (Some 350) None None None
      = inr (zip_with c_mul H1 H2).
Proof.
  assert (HM : 350 <> 0) by lra.
  split; [exact HM |].
  exact (H_gas_cascade_app [1; 10] [2/10] [3/10; 4/10] 350 None None None
           HM).
Defined.

(** X11. A zero payload mass makes Python's float division m / M
    raise: [H_gas_single] fails with ZeroDivisionError on every grid,
    even an empty one, and so does [H_gas_cascade] as soon as the list
    of resonances has one stage. *)
Theorem H_gas_zero_mass_raises
  (w : list R) (f0 : option R) (f1 : R) (l : list R)
  (m phi gamma : option R) :
  H_gas_single w f0 (Some 0) m phi gamma = inl ZeroDivisionError /\
  H_gas_cascade w (f1 :: l) (Some 0) m phi gamma = inl ZeroDivisionError.
Proof.
  assert (E : forall f m phi gamma,
             H_gas_single w f (Some 0) m phi gamma = inl ZeroDivisionError).
  { intros f m' phi' gamma'. unfold H_gas_single, float_div. cbn [kw].
    rewrite (proj2 (Ris_zero_true 0) eq_refl). reflexivity. }
  split; [apply E |].
  unfold H_gas_cascade. cbn [kw fold_left rbind]. rewrite E.
  induction l as [| f2 l IH]; simpl; [reflexivity | exact IH].
Qed.

(* ------------------------------------------------------------------ *)
(** ** State space: feedback gains *)

Lemma elementwise_same_shape (op : C -> C -> C) (a b : ndarray) :
  nrows a = nrows b -> ncols a = ncols b ->
  exists d, elementwise op a b = inr (mk_ndarray (nrows a) (ncols a) d).
Proof.
  intros Hr Hc. unfold elementwise. rewrite <- Hr, <- Hc, !bdim_same.
  simpl. eexists. reflexivity.
Qed.

Lemma matmul_fits (a b : ndarray) :
  ncols a = nrows b ->
  exists d, matmul a b = inr (mk_ndarray (nrows a) (ncols b) d).
Proof.
  intros E. unfold matmul. rewrite E, Nat.eqb_refl. eexists. reflexivity.
Qed.

Lemma dot_zeros_r (r : list C) (m : nat) : dot r (repeat C0 m) = C0.
Proof.
  unfold dot. revert m. induction r as [| x r IH]; intros [| m]; simpl;
    try reflexivity.
  replace (Cadd C0 (Cmul x C0)) with C0 by c_ring.
  apply IH.
Qed.

Lemma nth_repeat_C0 (j q : nat) : nth j (repeat C0 q) C0 = C0.
Proof.
  revert j. induction q as [| q IH]; intros [| j]; simpl;
    try reflexivity. apply IH.
Qed.

Lemma column_zeros (j m q : nat) : column j (zeros m q) = repeat C0 m.
Proof.
  unfold column, zeros. cbn [rows]. rewrite map_repeat, nth_repeat_C0.
  reflexivity.
Qed.

Lemma map_const_repeat {X Y} (y : Y) (l : list X) :
  map (fun _ => y) l = repeat y (length l).
Proof.
  induction l as [| x l IH]; simpl; [| rewrite IH]; reflexivity.
Qed.

Lemma matmul_zeros_r (B : ndarray) (m q : nat) :
  length (rows B) = nrows B -> ncols B = m ->
  matmul B (zeros m q) = inr (zeros (nrows B) q).
Proof.
  intros HL Hm. unfold matmul.
  replace (nrows (zeros m q)) with m by reflexivity.
  replace (ncols (zeros m q)) with q by reflexivity.
  rewrite Hm, Nat.eqb_refl. unfold zeros at 2. do 2 f_equal.
  rewrite <- HL, <- map_const_repeat.
  apply map_ext. intros r.
  etransitivity; [| apply (map_const_seq C0 0 q)].
  apply map_ext. intros j.
  rewrite column_zeros. apply dot_zeros_r.
Qed.

Lemma Acl_of_zero_gain (A B C1 : ndarray) (m q : nat) :
  well_shaped A -> length (rows B) = nrows B ->
  nrows B = nrows A -> ncols B = m ->
  nrows C1 = q -> ncols C1 = ncols A ->
  Acl_of A B (zeros m q) C1 = inr A.
Proof.
  intros HA HL HBr HBc Hq Hn. unfold Acl_of.
  rewrite (matmul_zeros_r B m q HL HBc). cbn [rbind].
  rewrite (matmul_zeros_l (nrows B) q C1 Hq). cbn [rbind].
  rewrite HBr, Hn. apply ndsub_zeros_r. exact HA.
Qed.

Lemma Ccl_of_zero_gain (C D C1 : ndarray) (m q : nat) :
  well_shaped C -> length (rows D) = nrows D ->
  nrows D = nrows C -> ncols D = m ->
  nrows C1 = q -> ncols C1 = ncols C ->
  Ccl_of C D (zeros m q) C1 = inr C.
Proof.
  intros HC HL HDr HDc Hq Hn. unfold Ccl_of.
  rewrite (matmul_zeros_r D m q HL HDc). cbn [rbind].
  rewrite (matmul_zeros_l (nrows D) q C1 Hq). cbn [rbind].
  rewrite HDr, Hn. apply ndsub_zeros_r. exact HC.
Qed.

(** X14. A zero feedback gain leaves the loop open: for arrays whose
    shapes fit, [Acl = A - B @ K @ C1] with K = 0 is A itself, and the
    closed-loop sweep of lines 43-55 is the open-loop sweep. *)
Theorem closed_loop_zero_gain
  (A B C D C1 : ndarray) (m q : nat) (w : list R) :
  well_shaped A -> well_shaped C ->
  length (rows B) = nrows B -> length (rows D) = nrows D ->
  nrows B = nrows A -> ncols B = m ->
  nrows D = nrows C -> ncols D = m ->
  nrows C1 = q -> ncols C1 = ncols A -> ncols C = ncols A ->
  Acl_of A B (zeros m q) C1 = inr A /\
  closed_loop_response A B C D (zeros m q) C1 w
    = frequency_response A B C D w.
Proof.
  intros HA HC HLB HLD HBr HBc HDr HDc Hq Hn HCn.
  pose proof (Acl_of_zero_gain A B C1 m q HA HLB HBr HBc Hq Hn) as EA.
  split; [exact EA |].
  unfold closed_loop_response. rewrite EA.
  rewrite (Ccl_of_zero_gain C D C1 m q HC HLD HDr HDc Hq)
    by congruence.
  reflexivity.
Qed.

Lemma closed_loop_zero_gain_witness :
  let r := RtoC in
  let sysA := array [[r 0; r 1; r 0; r 0];
                     [r (-1); r (-1); r 1; r 0];
                     [r 0; r 0; r 0; r 1];
                     [r 1; r 0; r (-4); r (-1)]] in
  let sysB := array [[r 0]; [r 1]; [r 0]; [r 0]] in
  let sysC := array [[r 1; r 0; r 0; r 0]; [r 0; r 0; r 1; r 0]] in
  let sysD := zeros 2 1 in
  let Cx := array [[r 1; r 0; r 0; r 0]] in
  Acl_of sysA sysB (zeros 1 1) Cx = inr sysA /\
  closed_loop_response sysA sysB sysC sysD (zeros 1 1) Cx [1; 10]
    = frequency_response sysA sysB sysC sysD [1; 10].
Proof.
  intros r sysA sysB sysC sysD Cx.
  apply (closed_loop_zero_gain sysA sysB sysC sysD Cx 1 1 [1; 10]);
    try reflexivity;
    (split; [reflexivity | repeat constructor]).
Defined.





(* ------------------------------------------------------------------ *)
(** ** Bode data: alignment, degenerate inputs and closed forms *)

Lemma length_unwrap (p : list float64) : length (unwrap p) = length p.
Proof.
  unfold unwrap. pose proof (length_diff p) as Hdd.
  set (dd := diff p) in *. clearbody dd.
  destruct p as [| x p]; [reflexivity |].
  simpl length in *. f_equal.
  rewrite length_zip_with_min, length_cumsum.
  rewrite !length_zip_with_min, length_map, Hdd. lia.
Qed.

Lemma zip_add_zero_r (l z : list float64) :
  all_zero z -> length z = length l -> zip_with f_add l z = l.
Proof.
  intros Hz. revert l. induction Hz as [| y z Hy Hz IH];
    intros [| x l] E; simpl in *; try reflexivity; try discriminate.
  rewrite IH by congruence. subst y. f_equal.
  destruct x as [a |]; simpl; [f_equal; ring | reflexivity].
Qed.

Lemma no_jump_correction (c dd : list float64) :
  Forall (fun d => f_ltb (f_abs d) (2 * pi / 2) = true) dd ->
  all_zero (zip_with (fun c d => if f_ltb (f_abs d) (2 * pi / 2)
                                 then Some 0 else c) c dd).
Proof.
  intros Hd. revert c. induction Hd as [| d dd Hd Hdd IH];
    intros [| c0 c]; simpl; try constructor.
  - rewrite Hd. reflexivity.
  - apply IH.
Qed.

(** [unwrap] changes nothing when every step of the phase is below
    pi in magnitude. *)
Lemma unwrap_no_jump (p : list float64) :
  Forall (fun d => f_ltb (f_abs d) (2 * pi / 2) = true) (diff p) ->
  unwrap p = p.
Proof.
  intros Hd. unfold unwrap. pose proof (length_diff p) as Hdd.
  set (dd := diff p) in *. clearbody dd.
  destruct p as [| p0 rest]; [reflexivity |]. f_equal.
  apply zip_add_zero_r.
  - apply all_zero_cumsum, no_jump_correction. exact Hd.
  - rewrite length_cumsum, !length_zip_with_min, length_map, Hdd.
    simpl. lia.
Qed.

Lemma Forall_diff_map {X} (P : float64 -> Prop) (g : X -> float64)
  (l : list X) :
  (forall x y, P (f_sub (g y) (g x))) -> Forall P (diff (map g l)).
Proof.
  intros HP. induction l as [| x l IH]; [constructor |].
  destruct l as [| y l]; [constructor |].
  change (diff (map g (x :: y :: l)))
    with (f_sub (g y) (g x) :: diff (map g (y :: l))).
  constructor; [apply HP | exact IH].
Qed.

Lemma unwrap_all_none {X} (l : list X) :
  unwrap (map (fun _ => None) l) = map (fun _ => None) l.
Proof.
  unfold unwrap. pose proof (length_diff (map (fun _ : X => @None R) l))
    as Hdd.
  set (dd := diff (map (fun _ : X => None) l)) in *. clearbody dd.
  destruct l as [| x l]; [reflexivity |]. cbn [map]. f_equal.
  match goal with
  | |- zip_with f_add _ (cumsum ?c) = _ =>
      assert (Hc : length (cumsum c) = length l)
  end.
  { rewrite length_cumsum, !length_zip_with_min, length_map, Hdd.
    simpl. rewrite length_map. lia. }
  match goal with
  | |- zip_with f_add _ ?c = _ => revert Hc; generalize c
  end.
  clear. induction l as [| x l IH]; intros [| c0 c] E; simpl in *;
    try reflexivity; try discriminate.
  rewrite IH by congruence. reflexivity.
Qed.

(** X16. Both Bode arrays have one entry per grid point, for every
    numerator, denominator and grid. *)
Theorem bode_mag_phase_follows_grid (num den w : list R) :
  length (fst (bode_mag_phase num den w)) = length w /\
  length (snd (bode_mag_phase num den w)) = length w.
Proof.
  unfold bode_mag_phase, signal.freqs. cbn [fst snd].
  rewrite !length_map, length_unwrap, !length_map.
  split; reflexivity.
Qed.

Lemma polyval_const (c : R) (s : C) : polyval [c] s = RtoC c.
Proof. unfold polyval. simpl. c_ring. Qed.

(** X17. A denominator that is the zero polynomial [0] makes every
    sample a division by zero: nothing is raised, and the magnitude is
    inf/NaN at every grid point for every numerator; for a constant
    numerator the phase is NaN at every grid point as well. *)
Theorem bode_zero_denominator (w : list R) :
  (forall num : list R,
      fst (bode_mag_phase num [0] w) = map (fun _ => None) w) /\
  (forall c : R,
      bode_mag_phase [c] [0] w =
        (map (fun _ => None) w, map (fun _ => None) w)).
Proof.
  assert (Eh : forall num,
             map (fun si => Cdiv (polyval num si) (polyval [0] si))
                 (map (fun wi => Cmul Ci (RtoC wi)) w)
             = map (fun _ => None) w).
  { intros num. rewrite map_map. apply map_ext. intros wi.
    rewrite polyval_const. unfold Cdiv.
    rewrite (proj2 (Cis_zero_true (RtoC 0))) by (split; reflexivity).
    reflexivity. }
  split.
  - intros num. unfold bode_mag_phase, signal.freqs. cbn [fst].
    rewrite Eh, map_map. reflexivity.
  - intros c. unfold bode_mag_phase, signal.freqs.
    rewrite Eh. f_equal.
    + rewrite map_map. reflexivity.
    + rewrite map_map. cbn [angle lift1].
      rewrite unwrap_all_none, map_map. reflexivity.
Qed.

(** X18. A zero numerator over the denominator [1] gives H = 0 on the
    whole grid: the magnitude is log10(0), minus infinity, at every
    point and the phase is 0 degrees; nothing is raised. *)
Theorem bode_zero_numerator (w : list R) :
  bode_mag_phase [0] [1] w =
    (map (fun _ => None) w, map (fun _ => Some 0) w).
Proof.
  unfold bode_mag_phase, signal.freqs.
  assert (Eh : map (fun si => Cdiv (polyval [0] si) (polyval [1] si))
                   (map (fun wi => Cmul Ci (RtoC wi)) w)
               = map (fun _ => Some C0) w).
  { rewrite map_map. apply map_ext. intros wi.
    rewrite !polyval_const. unfold Cdiv.
    rewrite Cis_zero_false by (left; simpl; lra).
    f_equal. apply C_eq; unfold Cmul, Cinv, Cnorm2, C0, RtoC; simpl; field. }
  rewrite Eh. f_equal.
  - rewrite map_map. apply map_ext. intros _.
    unfold c_abs, lift1, Cabs, Cnorm2, C0, RtoC. simpl.
    replace (0 * (0 * 1) + 0 * (0 * 1)) with 0 by ring.
    rewrite sqrt_0. unfold log10.
    destruct (Rlt_dec 0 0) as [Hn | _]; [exfalso; lra | reflexivity].
  - assert (Hang : map angle (map (fun _ : R => Some C0) w)
                   = map (fun _ => Some 0) w).
    { rewrite map_map. apply map_ext. intros _.
      unfold angle, arctan2, C0, RtoC. simpl.
      destruct (Rlt_dec 0 0) as [Hn | _]; [exfalso; lra | reflexivity]. }
    rewrite Hang, unwrap_all_zero.
    + rewrite map_map. apply map_ext. intros _. simpl.
      rewrite (proj2 (Ris_zero_false pi)) by (unfold pi; apply PI_neq0).
      f_equal. unfold Rdiv. ring.
    + apply Forall_forall. intros x Hx.
      apply in_map_iff in Hx. destruct Hx as (_ & <- & _). reflexivity.
Qed.

Lemma Cdiv_by_1 (z : C) : Cdiv z C1 = Some z.
Proof.
  unfold Cdiv. rewrite Cis_zero_false by (left; simpl; lra).
  f_equal. apply C_eq; unfold Cmul, Cinv, Cnorm2, C1, RtoC; simpl; field.
Qed.

Lemma Cabs_real (k : R) : Cabs (RtoC k) = Rabs k.
Proof.
  unfold Cabs, Cnorm2, RtoC. simpl.
  replace (k * (k * 1) + 0 * (0 * 1)) with (Rsqr k) by (unfold Rsqr; ring).
  apply sqrt_Rsqr_abs.
Qed.

Lemma half_turn_pos : 0 < 2 * pi / 2.
Proof. unfold pi. pose proof PI_RGT_0. lra. Qed.

Lemma unwrap_constant {X} (c : R) (l : list X) :
  unwrap (map (fun _ => Some c) l) = map (fun _ => Some c) l.
Proof.
  apply unwrap_no_jump, Forall_diff_map. intros _ _. simpl.
  replace (c - c) with 0 by ring. rewrite Rabs_R0.
  destruct (Rlt_dec 0 (2 * pi / 2)) as [_ | Hn]; [reflexivity |].
  exfalso. apply Hn, half_turn_pos.
Qed.

(** X19. A constant gain k over the denominator [1]: the magnitude is
    20 log10 |k| dB at every grid point, and the phase is 0 degrees for
    k > 0 and 180 degrees for k < 0. *)
Theorem bode_constant_gain (k : R) (w : list R) :
  k <> 0 ->
  bode_mag_phase [k] [1] w =
    (map (fun _ => Some (20 * (ln (Rabs k) / ln 10))) w,
     map (fun _ => Some (if Rlt_dec 0 k then 0 else 180)) w).
Proof.
  intros Hk. unfold bode_mag_phase, signal.freqs.
  assert (Eh : map (fun si => Cdiv (polyval [k] si) (polyval [1] si))
                   (map (fun wi => Cmul Ci (RtoC wi)) w)
               = map (fun _ => Some (RtoC k)) w).
  { rewrite map_map. apply map_ext. intros wi.
    rewrite !polyval_const. apply Cdiv_by_1. }
  rewrite Eh. f_equal.
  - rewrite map_map. apply map_ext. intros _.
    unfold c_abs, lift1. rewrite Cabs_real. unfold log10.
    destruct (Rlt_dec 0 (Rabs k)) as [_ | Hn]; [reflexivity |].
    exfalso. apply Hn, Rabs_pos_lt. exact Hk.
  - assert (Hang : map angle (map (fun _ : R => Some (RtoC k)) w)
                   = map (fun _ => Some (if Rlt_dec 0 k then 0 else PI)) w).
    { rewrite map_map. apply map_ext. intros _.
      unfold angle, arctan2, RtoC. simpl. f_equal.
      replace (0 / k) with 0 by (field; exact Hk).
      destruct (Rlt_dec 0 k) as [_ | Hn]; [apply atan_0 |].
      destruct (Rlt_dec k 0) as [_ | Hn']; [| exfalso; lra].
      destruct (Rle_dec 0 0) as [_ | Hn'']; [| exfalso; lra].
      rewrite atan_0. ring. }
    rewrite Hang, unwrap_constant, map_map.
    apply map_ext. intros _. simpl.
    rewrite (proj2 (Ris_zero_false pi)) by (unfold pi; apply PI_neq0).
    f_equal. unfold pi.
    destruct (Rlt_dec 0 k); field; apply PI_neq0.
Qed.

Lemma bode_constant_gain_witness :
  -5 <> 0 /\
  bode_mag_phase [-5] [1] [1; 10] =
    (map (fun _ => Some (20 * (ln (Rabs (-5)) / ln 10))) [1; 10],
     map (fun _ => Some (if Rlt_dec 0 (-5) then 0 else 180)) [1; 10]).
Proof.
  assert (Hk : -5 <> 0) by lra.
  split; [exact Hk |].
  exact (bode_constant_gain (-5) [1; 10] Hk).
Defined.

Lemma polyval_first_order (a wi : R) :
  polyval [1; a] (Cmul Ci (RtoC wi)) = (a, wi).
Proof. unfold polyval. simpl. c_ring. Qed.

Lemma Cabs_inv (z : C) : Cabs (Cinv z) = / Cabs z.
Proof.
  unfold Cabs. destruct (Req_dec_T (Cnorm2 z) 0) as [E | E].
  - assert (E' : Cnorm2 (Cinv z) = 0).
    { unfold Cinv. unfold Cnorm2 at 1. simpl fst. simpl snd.
      rewrite E. unfold Rdiv. rewrite Rinv_0. ring. }
    rewrite E', E, sqrt_0, Rinv_0. reflexivity.
  - rewrite Cnorm2_inv by exact E. apply sqrt_inv.
Qed.

(** X20. First-order lag k / (s + a) with k > 0 and a > 0, given as
    num = [k], den = [1, a]: at every grid point the magnitude is
    20 log10 (k / sqrt(a^2 + w^2)) dB and the phase is
    atan(-w / a) in degrees; the phase stays inside one half turn, so
    unwrapping changes nothing. *)
Theorem bode_first_order_lag (k a : R) (w : list R) :
  0 < k -> 0 < a ->
  bode_mag_phase [k] [1; a] w =
    (map (fun wi => Some (20 * (ln (k / sqrt (a ^ 2 + wi ^ 2)) / ln 10))) w,
     map (fun wi => Some (atan (- wi / a) * 180 / pi)) w).
Proof.
  intros Hk Ha. unfold bode_mag_phase, signal.freqs.
  assert (HN : forall wi, 0 < a ^ 2 + wi ^ 2).
  { intros wi. pose proof (pow2_ge_0 wi). pose proof (pow_lt a 2 Ha). lra. }
  assert (Eh : map (fun si => Cdiv (polyval [k] si) (polyval [1; a] si))
                   (map (fun wi => Cmul Ci (RtoC wi)) w)
               = map (fun wi => Some (Cmul (RtoC k) (Cinv (a, wi)))) w).
  { rewrite map_map. apply map_ext. intros wi.
    rewrite polyval_const, polyval_first_order. unfold Cdiv.
    rewrite Cis_zero_false by (left; simpl; lra). reflexivity. }
  rewrite Eh. f_equal.
  - rewrite map_map. apply map_ext. intros wi.
    unfold c_abs, lift1. rewrite Cabs_mul, Cabs_real, Cabs_inv.
    rewrite (Rabs_pos_eq k) by lra.
    unfold Cabs. change (Cnorm2 (a, wi)) with (a ^ 2 + wi ^ 2).
    fold (k / sqrt (a ^ 2 + wi ^ 2)). unfold log10.
    destruct (Rlt_dec 0 (k / sqrt (a ^ 2 + wi ^ 2))) as [_ | Hn];
      [reflexivity |].
    exfalso. apply Hn. apply Rdiv_lt_0_compat; [exact Hk |].
    apply sqrt_lt_R0, HN.
  - assert (Hang : map angle
                     (map (fun wi => Some (Cmul (RtoC k) (Cinv (a, wi)))) w)
                   = map (fun wi => Some (atan (- wi / a))) w).
    { rewrite map_map. apply map_ext. intros wi.
      unfold angle, lift1. f_equal. unfold arctan2.
      specialize (HN wi).
      assert (Hre : fst (Cmul (RtoC k) (Cinv (a, wi)))
                    = k * a / (a ^ 2 + wi ^ 2)).
      { unfold Cmul, Cinv, Cnorm2, RtoC. simpl. field. simpl in HN. lra. }
      assert (Him : snd (Cmul (RtoC k) (Cinv (a, wi)))
                    = - (k * wi) / (a ^ 2 + wi ^ 2)).
      { unfold Cmul, Cinv, Cnorm2, RtoC. simpl. field. simpl in HN. lra. }
      rewrite Hre, Him.
      destruct (Rlt_dec 0 (k * a / (a ^ 2 + wi ^ 2))) as [_ | Hn].
      - f_equal. field. split; [| split]; lra.
      - exfalso. apply Hn. apply Rdiv_lt_0_compat; [nra | exact HN]. }
    rewrite Hang, unwrap_no_jump.
    + rewrite map_map. apply map_ext. intros wi. simpl.
      rewrite (proj2 (Ris_zero_false pi)) by (unfold pi; apply PI_neq0).
      reflexivity.
    + apply Forall_diff_map. intros x y. simpl.
      destruct (Rlt_dec (Rabs (atan (- y / a) - atan (- x / a)))
                        (2 * pi / 2)) as [_ | Hn]; [reflexivity |].
      exfalso. apply Hn. unfold pi.
      pose proof (atan_bound (- y / a)) as [B1 B2].
      pose proof (atan_bound (- x / a)) as [B3 B4].
      apply Rabs_def1; lra.
Qed.

Lemma bode_first_order_lag_witness :
  0 < 1 /\ 0 < 1 /\
  bode_mag_phase [1] [1; 1] [0; 1] =
    (map (fun wi => Some (20 * (ln (1 / sqrt (1 ^ 2 + wi ^ 2)) / ln 10)))
         [0; 1],
     map (fun wi => Some (atan (- wi / 1) * 180 / pi)) [0; 1]).
Proof.
  assert (H1 : 0 < 1) by lra.
  split; [exact H1 | split; [exact H1 |]].
  exact (bode_first_order_lag 1 1 [0; 1] H1 H1).
Defined.

(* ------------------------------------------------------------------ *)
(** ** What the polynomial pairs mean on the frequency axis *)

Lemma polyval_step_add (a b s : C) (x y : R) :
  Cadd (Cmul (Cadd a b) s) (RtoC (x + y)) =
  Cadd (Cadd (Cmul a s) (RtoC x)) (Cadd (Cmul b s) (RtoC y)).
Proof. c_ring. Qed.

Lemma horner_zip_add (p q : list R) (s : C) :
  length p = length q ->
  forall a b,
    fold_left (fun y pv => Cadd (Cmul y s) (RtoC pv))
              (zip_with Rplus p q) (Cadd a b) =
    Cadd (fold_left (fun y pv => Cadd (Cmul y s) (RtoC pv)) p a)
         (fold_left (fun y pv => Cadd (Cmul y s) (RtoC pv)) q b).
Proof.
  revert q. induction p as [| x p IH]; intros [| y q] E a b; simpl in *;
    try reflexivity; try discriminate.
  rewrite polyval_step_add. apply IH. congruence.
Qed.

Lemma horner_zeros (n : nat) (s : C) :
  fold_left (fun y pv => Cadd (Cmul y s) (RtoC pv)) (repeat 0 n) C0 = C0.
Proof.
  induction n as [| n IH]; simpl; [reflexivity |].
  replace (Cadd (Cmul C0 s) (RtoC 0)) with C0 by c_ring. exact IH.
Qed.

Lemma polyval_lead_zeros (n : nat) (p : list R) (s : C) :
  polyval (repeat 0 n ++ p) s = polyval p s.
Proof.
  unfold polyval. rewrite fold_left_app, horner_zeros. reflexivity.
Qed.

(** The padded sum of [np.polyadd] adds the values of the two
    polynomials. *)
Lemma polyval_polyadd (a1 a2 : list R) (s : C) :
  polyval (polyadd a1 a2) s = Cadd (polyval a1 s) (polyval a2 s).
Proof.
  rewrite polyadd_right_aligned. unfold right_aligned_sum.
  rewrite <- (polyval_lead_zeros
                (Nat.max (length a1) (length a2) - length a1) a1 s).
  rewrite <- (polyval_lead_zeros
                (Nat.max (length a1) (length a2) - length a2) a2 s).
  unfold polyval at 1.
  replace C0 with (Cadd C0 C0) at 1 by c_ring.
  apply (horner_zip_add _ _ s).
  rewrite !length_app, !repeat_length. lia.
Qed.

Lemma Cis_zero_mul (a b : C) :
  Cis_zero (Cmul a b) = Cis_zero a || Cis_zero b.
Proof.
  destruct (Cis_zero a) eqn:Ea; [| destruct (Cis_zero b) eqn:Eb]; simpl.
  - apply Cis_zero_true in Ea. destruct Ea as [E1 E2].
    apply Cis_zero_true. unfold Cmul. simpl. rewrite E1, E2. split; ring.
  - apply Cis_zero_true in Eb. destruct Eb as [E1 E2].
    apply Cis_zero_true. unfold Cmul. simpl. rewrite E1, E2. split; ring.
  - destruct (Cis_zero (Cmul a b)) eqn:Eab; [| reflexivity].
    exfalso. pose proof (Cmul_inv_r a Ea) as Ia.
    pose proof (Cmul_inv_r b Eb) as Ib.
    apply Cis_zero_true in Eab. destruct Eab as [E1 E2].
    assert (Z : Cmul a b = C0) by (apply C_eq; assumption).
    assert (Z' : Cmul (Cmul a b) (Cmul (Cinv a) (Cinv b)) = C1).
    { transitivity (Cmul (Cmul a (Cinv a)) (Cmul b (Cinv b)));
        [c_ring | rewrite Ia, Ib; c_ring]. }
    rewrite Z, Cmul_0_l in Z'. unfold C0, C1, RtoC in Z'.
    injection Z' as Z'. lra.
Qed.

Lemma Cinv_nonzero (a : C) : Cis_zero a = false -> Cis_zero (Cinv a) = false.
Proof.
  intros Ea. pose proof (Cmul_inv_r a Ea) as Ia.
  destruct (Cis_zero (Cinv a)) eqn:E; [| reflexivity].
  exfalso. assert (Z : Cis_zero (Cmul a (Cinv a)) = true)
    by (rewrite Cis_zero_mul, E; apply orb_true_r).
  rewrite Ia in Z. apply Cis_zero_true in Z. simpl in Z. lra.
Qed.

Lemma Cinv_unique (a b : C) : Cmul a b = C1 -> Cis_zero a = false -> b = Cinv a.
Proof.
  intros E Ea. pose proof (Cmul_inv_r a Ea) as Ia.
  transitivity (Cmul (Cmul a b) (Cinv a)); [| rewrite E; c_ring].
  transitivity (Cmul b (Cmul a (Cinv a))); [rewrite Ia; c_ring | c_ring].
Qed.

Lemma Cinv_mul (a b : C) :
  Cis_zero a = false -> Cis_zero b = false ->
  Cinv (Cmul a b) = Cmul (Cinv a) (Cinv b).
Proof.
  intros Ea Eb. symmetry. apply Cinv_unique.
  - transitivity (Cmul (Cmul a (Cinv a)) (Cmul b (Cinv b))); [c_ring |].
    rewrite (Cmul_inv_r a Ea), (Cmul_inv_r b Eb). c_ring.
  - rewrite Cis_zero_mul, Ea, Eb. reflexivity.
Qed.

Lemma Cinv_inv (a : C) : Cis_zero a = false -> Cinv (Cinv a) = a.
Proof.
  intros Ea. symmetry. apply Cinv_unique.
  - rewrite Cmul_comm. apply Cmul_inv_r. exact Ea.
  - apply Cinv_nonzero. exact Ea.
Qed.

(** L / (1 + L) for L = n / d with d non-zero is n / (d + n), also
    where the quotient degenerates. *)
Lemma closed_loop_quotient (n d : C) :
  Cis_zero d = false ->
  c_div (Cdiv n d) (c_add (Some C1) (Cdiv n d)) = Cdiv n (Cadd d n).
Proof.
  intros Ed. pose proof (Cmul_inv_r d Ed) as Id.
  unfold Cdiv at 1 2. rewrite Ed. cbn [c_add lift2 c_div].
  assert (E1 : Cadd C1 (Cmul n (Cinv d)) = Cmul (Cadd d n) (Cinv d)).
  { rewrite <- Id. c_ring. }
  rewrite E1. unfold Cdiv.
  rewrite Cis_zero_mul, (Cinv_nonzero d Ed), orb_false_r.
  destruct (Cis_zero (Cadd d n)) eqn:Es; [reflexivity |].
  f_equal.
  rewrite (Cinv_mul _ _ Es (Cinv_nonzero d Ed)), (Cinv_inv d Ed).
  transitivity (Cmul (Cmul n (Cinv (Cadd d n))) (Cmul d (Cinv d)));
    [c_ring | rewrite Id; c_ring].
Qed.

(** The response of the pair [tf_feedback] returns. *)
Lemma tf_feedback_response (num den : list R) (w : list R) :
  snd (signal.freqs (fst (tf_feedback num den)) (snd (tf_feedback num den))
                    w) =
    map (fun wi =>
           Cdiv (polyval num (Cmul Ci (RtoC wi)))
                (Cadd (polyval den (Cmul Ci (RtoC wi)))
                      (polyval num (Cmul Ci (RtoC wi))))) w.
Proof.
  unfold tf_feedback, signal.freqs. cbn [fst snd].
  rewrite map_map. apply map_ext. intros wi.
  rewrite polyval_polyadd. reflexivity.
Qed.

(** X21. [tf_feedback] is the unity-feedback loop of its comment,
    T = L / (1 + L): at a grid point where the open-loop denominator
    is non-zero and the open-loop response is L, the response of the
    returned pair is L / (1 + L), which is num(s) / (den(s) + num(s))
    at s = jw. *)
Theorem tf_feedback_closed_loop
  (num den : list R) (w : list R) (i : nat) (wi : R) (L : complex128) :
  nth_error w i = Some wi ->
  Cis_zero (polyval den (Cmul Ci (RtoC wi))) = false ->
  nth_error (snd (signal.freqs num den w)) i = Some L ->
  nth_error (snd (signal.freqs (fst (tf_feedback num den))
                               (snd (tf_feedback num den)) w)) i
    = Some (c_div L (c_add (Some C1) L)) /\
  c_div L (c_add (Some C1) L)
    = Cdiv (polyval num (Cmul Ci (RtoC wi)))
           (Cadd (polyval den (Cmul Ci (RtoC wi)))
                 (polyval num (Cmul Ci (RtoC wi)))).
Proof.
  intros Hi Hd HL. rewrite tf_feedback_response.
  unfold signal.freqs in HL. cbn [snd] in HL. rewrite map_map in HL.
  rewrite (nth_error_map_some _ _ _ _ Hi) in HL. injection HL as <-.
  rewrite (nth_error_map_some _ _ _ _ Hi).
  rewrite (closed_loop_quotient _ _ Hd). split; reflexivity.
Qed.

Lemma tf_feedback_closed_loop_witness :
  let L := Cdiv (polyval [25] (Cmul Ci (RtoC 1)))
                (polyval [1; 3; 25] (Cmul Ci (RtoC 1))) in
  nth_error (snd (signal.freqs (fst (tf_feedback [25] [1; 3; 25]))
                               (snd (tf_feedback [25] [1; 3; 25])) [1])) 0
    = Some (c_div L (c_add (Some C1) L)).
Proof.
  intros L.
  assert (Hd : Cis_zero (polyval [1; 3; 25] (Cmul Ci (RtoC 1))) = false).
  { replace (polyval [1; 3; 25] (Cmul Ci (RtoC 1))) with ((24, 3) : C).
    - apply Cis_zero_false. left. simpl. lra.
    - unfold polyval. simpl. unfold C0, Ci, RtoC.
      repeat (rewrite Cmul_pair || rewrite Cadd_pair). f_equal; ring. }
  exact (proj1 (tf_feedback_closed_loop [25] [1; 3; 25] [1] 0 1 L
                  eq_refl Hd eq_refl)).
Defined.

(* ------------------------------------------------------------------ *)
(** ** [np.convolve] against the textbook product *)

Lemma fold_Rplus_acc (l : list R) (a : R) :
  fold_left Rplus l a = a + fold_left Rplus l 0.
Proof.
  revert a. induction l as [| x l IH]; intros a; simpl; [ring |].
  rewrite (IH (a + x)), (IH (0 + x)). ring.
Qed.

Lemma Rsum_app (l1 l2 : list R) :
  fold_left Rplus (l1 ++ l2) 0 =
  fold_left Rplus l1 0 + fold_left Rplus l2 0.
Proof. rewrite fold_left_app. apply fold_Rplus_acc. Qed.

Lemma Rsum_cons (x : R) (l : list R) :
  fold_left Rplus (x :: l) 0 = x + fold_left Rplus l 0.
Proof. simpl. rewrite fold_Rplus_acc. ring. Qed.

Lemma Rsum_map_zero {X} (f : X -> R) (l : list X) :
  (forall x, In x l -> f x = 0) -> fold_left Rplus (map f l) 0 = 0.
Proof.
  induction l as [| x l IH]; intros Hf; [reflexivity |].
  cbn [map]. rewrite Rsum_cons.
  rewrite IH by (intros y Hy; apply Hf; right; exact Hy).
  rewrite (Hf x) by (left; reflexivity). ring.
Qed.

Lemma Rsum_map_ext_in {X} (f g : X -> R) (l : list X) :
  (forall x, In x l -> f x = g x) ->
  fold_left Rplus (map f l) 0 = fold_left Rplus (map g l) 0.
Proof.
  intros Hfg. f_equal. apply map_ext_in. exact Hfg.
Qed.

(** Summation over [0 .. n-1] read backwards. *)
Lemma Rsum_seq_rev (f : nat -> R) (n : nat) :
  fold_left Rplus (map (fun i => f (n - 1 - i)%nat) (seq 0 n)) 0 =
  fold_left Rplus (map f (seq 0 n)) 0.
Proof.
  revert f. induction n as [| n IH]; intros f; [reflexivity |].
  rewrite seq_S at 2. rewrite map_app, Rsum_app. cbn [map Nat.add].
  rewrite Rsum_cons. cbn [fold_left].
  cbn [seq map]. rewrite Rsum_cons.
  rewrite <- seq_shift, map_map.
  replace (S n - 1 - 0)%nat with n by lia.
  rewrite <- (IH f).
  rewrite (Rsum_map_ext_in (fun i => f (S n - 1 - S i)%nat)
             (fun i => f (n - 1 - i)%nat)) by (intros; f_equal; lia).
  ring.
Qed.

Lemma cauchy_comm (a v : list R) (k : nat) : cauchy a v k = cauchy v a k.
Proof.
  unfold cauchy.
  rewrite <- (Rsum_seq_rev (fun i => nth i v 0 * nth (k - i) a 0) (S k)).
  apply Rsum_map_ext_in. intros i Hi. apply in_seq in Hi.
  replace (S k - 1 - i)%nat with (k - i)%nat by lia.
  replace (k - (k - i))%nat with i by lia. ring.
Qed.

Lemma cauchy_nil (v : list R) (k : nat) : cauchy [] v k = 0.
Proof.
  unfold cauchy. apply Rsum_map_zero. intros i _.
  destruct i; simpl; ring.
Qed.

Lemma cauchy_cons (a0 : R) (a v : list R) (k : nat) :
  cauchy (a0 :: a) v k =
  a0 * nth k v 0 + match k with O => 0 | S k' => cauchy a v k' end.
Proof.
  unfold cauchy at 1. cbn [seq map]. rewrite Rsum_cons.
  cbn [nth]. rewrite Nat.sub_0_r. f_equal.
  destruct k as [| k']; [reflexivity |].
  rewrite <- seq_shift, map_map. unfold cauchy.
  apply Rsum_map_ext_in. intros i _. reflexivity.
Qed.

(** One sample of the correlation [np.convolve] runs, at float
    coefficients, is the textbook coefficient. *)
Lemma correlate_at_cauchy (a v : list R) (k : nat) :
  (1 <= length a)%nat -> (1 <= length v)%nat ->
  (k < length a + length v - 1)%nat ->
  correlate_at a (rev v) k = cauchy a v k.
Proof.
  intros Ha Hv Hk. unfold correlate_at, cauchy.
  rewrite length_rev.
  set (lo := (k + 1 - length v)%nat).
  set (hi := Nat.min k (length a - 1)).
  change (fold_left add ?l zero) with (fold_left Rplus l 0).
  assert (Hseq : seq 0 (S k) =
                 seq 0 lo ++ seq lo (hi + 1 - lo) ++ seq (hi + 1) (k - hi)).
  { replace (S k) with (lo + ((hi + 1 - lo) + (k - hi)))%nat
      by (unfold lo, hi; lia).
    rewrite !seq_app. cbn [Nat.add]. do 2 f_equal.
    f_equal. unfold lo, hi. lia. }
  rewrite Hseq, !map_app, !Rsum_app.
  rewrite (Rsum_map_zero _ (seq 0 lo)).
  2:{ intros i Hi. apply in_seq in Hi.
      rewrite (nth_overflow v) by (unfold lo in Hi; lia). ring. }
  rewrite (Rsum_map_zero _ (seq (hi + 1) (k - hi))).
  2:{ intros i Hi. apply in_seq in Hi.
      rewrite (nth_overflow a) by (unfold hi in Hi; lia). ring. }
  rewrite Rplus_0_l, Rplus_0_r.
  apply Rsum_map_ext_in. intros i Hi. apply in_seq in Hi.
  change (mul ?x ?y) with (x * y). change (@zero R _) with 0.
  f_equal.
  rewrite rev_nth by (unfold lo, hi in Hi; lia).
  f_equal. unfold lo, hi in Hi. lia.
Qed.

Lemma correlate_full_cauchy (a v : list R) :
  (1 <= length a)%nat -> (1 <= length v)%nat ->
  correlate_full a (rev v) =
  map (cauchy a v) (seq 0 (length a + length v - 1)).
Proof.
  intros Ha Hv. unfold correlate_full. rewrite length_rev.
  apply map_ext_in. intros k Hk. apply in_seq in Hk.
  apply correlate_at_cauchy; lia.
Qed.

(** [np.convolve] on two non-empty float sequences: no exception, and
    the textbook coefficients, whichever operand is the longer. *)
Lemma convolve_cauchy (a v : list R) :
  a <> [] -> v <> [] ->
  convolve a v = inr (map (cauchy a v) (seq 0 (length a + length v - 1))).
Proof.
  intros Ha Hv.
  assert (La : (1 <= length a)%nat) by (destruct a; simpl; [congruence | lia]).
  assert (Lv : (1 <= length v)%nat) by (destruct v; simpl; [congruence | lia]).
  unfold convolve. destruct (Nat.ltb_spec (length a) (length v)) as [L | L].
  - destruct (Nat.eqb_spec (length v) 0) as [E | _]; [lia |].
    destruct (Nat.eqb_spec (length a) 0) as [E | _]; [lia |].
    rewrite (correlate_full_cauchy v a Lv La). f_equal.
    rewrite (Nat.add_comm (length v)).
    apply map_ext. intros k. apply cauchy_comm.
  - destruct (Nat.eqb_spec (length a) 0) as [E | _]; [lia |].
    destruct (Nat.eqb_spec (length v) 0) as [E | _]; [lia |].
    rewrite (correlate_full_cauchy a v La Lv). reflexivity.
Qed.

Lemma horner_from (p : list R) (s acc : C) :
  fold_left (fun y pv => Cadd (Cmul y s) (RtoC pv)) p acc =
  Cadd (Cmul acc (Cpow s (length p)))
       (fold_left (fun y pv => Cadd (Cmul y s) (RtoC pv)) p C0).
Proof.
  revert acc. induction p as [| x p IH]; intros acc; simpl.
  - c_ring.
  - rewrite (IH (Cadd (Cmul acc s) (RtoC x))).
    rewrite (IH (Cadd (Cmul C0 s) (RtoC x))).
    generalize (Cpow s (length p)).
    generalize (fold_left (fun y pv => Cadd (Cmul y s) (RtoC pv)) p C0).
    intros u v. c_ring.
Qed.

Lemma polyval_cons (a0 : R) (a : list R) (s : C) :
  polyval (a0 :: a) s =
  Cadd (Cmul (RtoC a0) (Cpow s (length a))) (polyval a s).
Proof.
  unfold polyval. cbn [fold_left]. rewrite horner_from.
  f_equal. f_equal. c_ring.
Qed.

Lemma polyval_scale (a0 : R) (v : list R) (s : C) :
  polyval (map (Rmult a0) v) s = Cmul (RtoC a0) (polyval v s).
Proof.
  unfold polyval.
  replace C0 with (Cmul (RtoC a0) C0) at 1 by c_ring.
  generalize C0. induction v as [| x v IH]; intros acc; simpl;
    [reflexivity |].
  rewrite <- IH. f_equal. c_ring.
Qed.

Lemma polyval_trail_zeros (l : list R) (n : nat) (s : C) :
  polyval (l ++ repeat 0 n) s = Cmul (polyval l s) (Cpow s n).
Proof.
  unfold polyval. rewrite fold_left_app, horner_from.
  rewrite repeat_length, horner_zeros. c_ring.
Qed.

Lemma polyval_zip_add (p q : list R) (s : C) :
  length p = length q ->
  polyval (zip_with Rplus p q) s = Cadd (polyval p s) (polyval q s).
Proof.
  intros E. unfold polyval.
  replace C0 with (Cadd C0 C0) at 1 by c_ring.
  apply horner_zip_add. exact E.
Qed.

Lemma map_plus_zip {X} (F G : X -> R) (l : list X) :
  map (fun k => F k + G k) l = zip_with Rplus (map F l) (map G l).
Proof.
  induction l as [| x l IH]; simpl; [| rewrite IH]; reflexivity.
Qed.

Lemma map_nth_seq_R (v : list R) :
  map (fun k => nth k v 0) (seq 0 (length v)) = v.
Proof.
  induction v as [| x v IH]; simpl; [reflexivity |].
  f_equal. rewrite <- seq_shift, map_map. exact IH.
Qed.

(** The list of textbook coefficients evaluates to the product of the
    two polynomials. *)
Lemma polyval_cauchy (a v : list R) (s : C) :
  v <> [] ->
  polyval (map (cauchy a v) (seq 0 (length a + length v - 1))) s =
  Cmul (polyval a s) (polyval v s).
Proof.
  intros Hv.
  assert (Lv : (1 <= length v)%nat)
    by (destruct v; simpl; [congruence | lia]).
  induction a as [| a0 a IH].
  - cbn [length Nat.add].
    rewrite (map_ext _ (fun _ => 0)) by (intros k; apply cauchy_nil).
    rewrite map_const_seq. unfold polyval at 1 2. cbn [fold_left].
    rewrite horner_zeros. c_ring.
  - cbn [length].
    replace (S (length a) + length v - 1)%nat
      with (S (length a + length v - 1)) by lia.
    rewrite (map_ext _ (fun k => a0 * nth k v 0
                                 + match k with
                                   | O => 0
                                   | S k' => cauchy a v k'
                                   end))
      by (intros k; apply cauchy_cons).
    rewrite map_plus_zip, polyval_zip_add by (rewrite !length_map; reflexivity).
    assert (E1 : map (fun k => a0 * nth k v 0)
                     (seq 0 (S (length a + length v - 1)))
                 = map (Rmult a0) v ++ repeat 0 (length a)).
    { replace (S (length a + length v - 1)) with (length v + length a)%nat
        by lia.
      rewrite seq_app, map_app. f_equal.
      - rewrite <- (map_nth_seq_R v) at 2. rewrite map_map. reflexivity.
      - rewrite <- (map_const_seq 0 (0 + length v) (length a)).
        apply map_ext_in. intros k Hk. apply in_seq in Hk.
        rewrite nth_overflow by lia. ring. }
    assert (E2 : map (fun k => match k with
                                | O => 0
                                | S k' => cauchy a v k'
                                end)
                     (seq 0 (S (length a + length v - 1)))
                 = repeat 0 1
                   ++ map (cauchy a v) (seq 0 (length a + length v - 1))).
    { cbn [seq map repeat app]. f_equal.
      rewrite <- seq_shift, map_map. reflexivity. }
    rewrite E1, E2, polyval_trail_zeros, polyval_scale,
      polyval_lead_zeros, IH, polyval_cons.
    generalize (Cpow s (length a)) (polyval a s) (polyval v s).
    intros u pa pv. c_ring.
Qed.

Lemma polyval_trim_zeros (p : list R) (s : C) :
  polyval (trim_zeros p) s = polyval p s.
Proof.
  induction p as [| x p IH]; [reflexivity |].
  cbn [trim_zeros]. change (is_zero x) with (Ris_zero x).
  destruct (Ris_zero x) eqn:E; [| reflexivity].
  apply Ris_zero_true in E. subst x.
  rewrite IH. symmetry. apply (polyval_lead_zeros 1 p s).
Qed.

Lemma polyval_poly1d (p : list R) (s : C) :
  polyval (poly1d p) s = polyval p s.
Proof.
  rewrite <- (polyval_trim_zeros p s). unfold poly1d.
  destruct (trim_zeros p) as [| x t]; [| reflexivity].
  unfold polyval. simpl. c_ring.
Qed.

(** [np.polymul] on float sequences: never an exception, and the
    result evaluates to the product of the operands' values. *)
Lemma polymul_polyval (a1 a2 : list R) :
  exists r, polymul a1 a2 = inr r /\
            forall s, polyval r s = Cmul (polyval a1 s) (polyval a2 s).
Proof.
  unfold polymul.
  rewrite (convolve_cauchy (poly1d a1) (poly1d a2))
    by apply poly1d_nonempty.
  eexists. split; [reflexivity |]. intros s.
  rewrite polyval_cauchy by apply poly1d_nonempty.
  rewrite !polyval_poly1d. reflexivity.
Qed.

Lemma Cdiv_mul (a b c d : C) :
  Cdiv (Cmul a c) (Cmul b d) = c_mul (Cdiv a b) (Cdiv c d).
Proof.
  unfold Cdiv. rewrite Cis_zero_mul.
  destruct (Cis_zero b) eqn:Eb; [reflexivity |].
  destruct (Cis_zero d) eqn:Ed; [reflexivity |].
  cbn [orb c_mul lift2]. f_equal.
  rewrite (Cinv_mul b d Eb Ed).
  generalize (Cinv b) (Cinv d). intros u v. c_ring.
Qed.

Lemma zip_with_map_same {X Y Z W} (f : Y -> Z -> W) (g : X -> Y)
  (h : X -> Z) (l : list X) :
  zip_with f (map g l) (map h l) = map (fun x => f (g x) (h x)) l.
Proof.
  induction l as [| x l IH]; simpl; [| rewrite IH]; reflexivity.
Qed.

Lemma tf_series_freqs (num1 den1 num2 den2 : list R) :
  exists num den,
    tf_series num1 den1 num2 den2 = inr (num, den) /\
    forall w,
      snd (signal.freqs num den w) =
        map (fun wi =>
               c_mul (Cdiv (polyval num1 (Cmul Ci (RtoC wi)))
                           (polyval den1 (Cmul Ci (RtoC wi))))
                     (Cdiv (polyval num2 (Cmul Ci (RtoC wi)))
                           (polyval den2 (Cmul Ci (RtoC wi))))) w.
Proof.
  destruct (polymul_polyval num1 num2) as (n & En & Hn).
  destruct (polymul_polyval den1 den2) as (d & Ed & Hd).
  exists n, d. unfold tf_series. rewrite En, Ed. cbn [rbind].
  split; [reflexivity |]. intros w.
  unfold signal.freqs. cbn [snd]. rewrite map_map.
  apply map_ext. intros wi. rewrite Hn, Hd. apply Cdiv_mul.
Qed.

(** X22. [tf_series] is the cascade of two blocks: on float
    coefficients it never raises, and the frequency response of the
    pair it returns is, at every grid point, the product of the two
    blocks' responses (inf/NaN where either block is). *)
Theorem tf_series_response (num1 den1 num2 den2 : list R) (w : list R) :
  exists num den,
    tf_series num1 den1 num2 den2 = inr (num, den) /\
    snd (signal.freqs num den w) =
      zip_with c_mul (snd (signal.freqs num1 den1 w))
                     (snd (signal.freqs num2 den2 w)).
Proof.
  destruct (tf_series_freqs num1 den1 num2 den2) as (n & d & E & Hf).
  exists n, d. split; [exact E |]. rewrite Hf.
  unfold signal.freqs. cbn [snd].
  rewrite !map_map, zip_with_map_same. reflexivity.
Qed.

Lemma log10_abs_mul (x y : complex128) :
  f_mul (Some 20) (log10 (c_abs (c_mul x y))) =
  f_add (f_mul (Some 20) (log10 (c_abs x)))
        (f_mul (Some 20) (log10 (c_abs y))).
Proof.
  destruct x as [a |], y as [b |]; cbn [c_mul lift2 c_abs lift1 log10];
    try reflexivity.
  - rewrite Cabs_mul.
    assert (Ha : 0 <= Cabs a) by apply sqrt_pos.
    assert (Hb : 0 <= Cabs b) by apply sqrt_pos.
    destruct (Rlt_dec 0 (Cabs a)) as [La | La];
      destruct (Rlt_dec 0 (Cabs b)) as [Lb | Lb];
      destruct (Rlt_dec 0 (Cabs a * Cabs b)) as [Lab | Lab];
      cbn [f_mul f_add lift2]; try reflexivity; try (exfalso; nra).
    f_equal. rewrite ln_mult by assumption. unfold Rdiv. ring.
  - destruct (Rlt_dec 0 (Cabs a)); reflexivity.
Qed.

(** X26. Decibels add along a cascade: the magnitude array of the
    pair [tf_series] returns is the element-wise sum of the magnitude
    arrays of the two blocks (inf/NaN where either is). *)
Theorem bode_series_magnitudes_add
  (num1 den1 num2 den2 : list R) (w : list R) :
  exists num den,
    tf_series num1 den1 num2 den2 = inr (num, den) /\
    fst (bode_mag_phase num den w) =
      zip_with f_add (fst (bode_mag_phase num1 den1 w))
                     (fst (bode_mag_phase num2 den2 w)).
Proof.
  destruct (tf_series_freqs num1 den1 num2 den2) as (n & d & E & Hf).
  exists n, d. split; [exact E |].
  assert (Eb : forall p q,
             fst (bode_mag_phase p q w)
             = map (fun hi => f_mul (Some 20) (log10 (c_abs hi)))
                   (snd (signal.freqs p q w)))
    by (intros p q; reflexivity).
  rewrite !Eb, Hf. unfold signal.freqs. cbn [snd].
  rewrite !map_map, zip_with_map_same.
  apply map_ext. intros wi. apply log10_abs_mul.
Qed.

Lemma polymul_comm (a1 a2 : list R) : polymul a1 a2 = polymul a2 a1.
Proof.
  unfold polymul.
  rewrite !convolve_cauchy by apply poly1d_nonempty.
  f_equal. rewrite (Nat.add_comm (length (poly1d a1))).
  apply map_ext. intros k. apply cauchy_comm.
Qed.

(** X23. The order of the two blocks does not matter: on float
    coefficients [tf_series] returns the same coefficient lists when
    its two transfer functions are exchanged. *)
Theorem tf_series_comm (num1 den1 num2 den2 : list R) :
  tf_series num1 den1 num2 den2 = tf_series num2 den2 num1 den1.
Proof.
  unfold tf_series.
  rewrite (polymul_comm num1 num2), (polymul_comm den1 den2).
  reflexivity.
Qed.

Section SeriesLengths.
Context {T : Type} `{Dtype T}.

Lemma poly1d_length_pos (p : list T) : (1 <= length (poly1d p))%nat.
Proof.
  unfold poly1d. destruct (trim_zeros p); simpl; lia.
Qed.

Lemma convolve_length (a v : list T) :
  (1 <= length a)%nat -> (1 <= length v)%nat ->
  exists r, convolve a v = inr r /\
            length r = (length a + length v - 1)%nat.
Proof.
  intros La Lv. unfold convolve.
  destruct (Nat.ltb_spec (length a) (length v)) as [L | L].
  - destruct (Nat.eqb_spec (length v) 0) as [E | _]; [lia |].
    destruct (Nat.eqb_spec (length a) 0) as [E | _]; [lia |].
    eexists. split; [reflexivity |].
    unfold correlate_full. rewrite length_map, length_seq, length_rev. lia.
  - destruct (Nat.eqb_spec (length a) 0) as [E | _]; [lia |].
    destruct (Nat.eqb_spec (length v) 0) as [E | _]; [lia |].
    eexists. split; [reflexivity |].
    unfold correlate_full. rewrite length_map, length_seq, length_rev.
    reflexivity.
Qed.

Lemma polyadd_length (a1 a2 : list T) :
  length (polyadd a1 a2) = Nat.max (length a1) (length a2).
Proof.
  rewrite polyadd_right_aligned. unfold right_aligned_sum.
  rewrite length_zip_with_min, !length_app, !repeat_length. lia.
Qed.

(** X24. Coefficient counts, for every coefficient type: [tf_series]
    never raises and each list it returns has one coefficient fewer
    than the two operands together, counted after the leading zeros
    are stripped; [tf_feedback] returns the numerator as it is and a
    denominator as long as the longer of its two arguments. *)
Theorem tf_coefficient_counts (num1 den1 num2 den2 : list T) :
  (exists num den,
      tf_series num1 den1 num2 den2 = inr (num, den) /\
      length num = (length (poly1d num1) + length (poly1d num2) - 1)%nat /\
      length den = (length (poly1d den1) + length (poly1d den2) - 1)%nat) /\
  fst (tf_feedback num1 den1) = num1 /\
  length (snd (tf_feedback num1 den1))
    = Nat.max (length den1) (length num1).
Proof.
  split; [| split; [reflexivity | apply polyadd_length]].
  destruct (convolve_length (poly1d num1) (poly1d num2)
              (poly1d_length_pos _) (poly1d_length_pos _))
    as (n & En & Ln).
  destruct (convolve_length (poly1d den1) (poly1d den2)
              (poly1d_length_pos _) (poly1d_length_pos _))
    as (d & Ed & Ld).
  exists n, d. unfold tf_series, polymul. rewrite En, Ed.
  split; [reflexivity | split; assumption].
Qed.

End SeriesLengths.

Lemma polyval_monic_first_order (a wi : R) :
  polyval [1; - a] (Cmul Ci (RtoC wi)) = (- a, wi).
Proof. unfold polyval. simpl. c_ring. Qed.


(* ================================================================== *)
(** * The sweep on four states and two outputs *)

(* ------------------------------------------------------------------ *)
(** ** Inverting a multiple of the identity *)

Ltac entrywise tac :=
  repeat match goal with
         | |- inr _ = inr _ => apply (f_equal inr)
         | |- mk_ndarray _ _ _ = mk_ndarray _ _ _ =>
             apply (f_equal (mk_ndarray _ _))
         | |- _ :: _ = _ :: _ => apply (f_equal2 cons)
         | |- [] = [] => reflexivity
         end; tac.

Lemma jw_off0 (wi : R) : Csub (Cmul (Cmul Ci (RtoC wi)) C0) C0 = C0.
Proof. c_ring. Qed.

Lemma jwI_minus_padded_A (a wi : R) :
  ndsub (scale (Cmul Ci (RtoC wi)) (eye 4)) (padded_A a)
  = inr (diag4 (- a, wi)).
Proof.
  cbv [padded_A diag4 ndsub elementwise bdim rbind array nrows ncols rows
       scale eye stretch zip_with map seq length hd Nat.eqb repeat].
  rewrite !jw_diag, !jw_off0. reflexivity.
Qed.

(** Complex numbers form a commutative ring, which lets [ring] treat
    matrix entries as atoms. *)
Lemma C_ring_theory :
  ring_theory C0 C1 Cadd Cmul Csub (fun a => Csub C0 a) (@eq C).
Proof.
  constructor; intros; c_ring.
Qed.

Add Ring C_ring : C_ring_theory.

Lemma det_diag4 (z : C) :
  la.det 4 (rows (diag4 z)) = Cmul z (Cmul z (Cmul z z)).
Proof.
  unfold diag4, array. cbn [rows].
  unfold la.det, la.sign, la.drop_nth. simpl. ring.
Qed.

Lemma adjugate_diag4 (z d : C) :
  la.adjugate_over 4 d (rows (diag4 z))
  = rows (diag4 (Cmul (Cmul z (Cmul z z)) (Cinv d))).
Proof.
  unfold la.adjugate_over, la.minor, diag4, array. cbn [rows].
  unfold la.det, la.sign, la.drop_nth. simpl.
  generalize (Cinv d). intros u.
  entrywise ltac:(ring).
Qed.

Lemma Cinv_cube_over_fourth (z : C) :
  Cis_zero z = false ->
  Cmul (Cmul z (Cmul z z)) (Cinv (Cmul z (Cmul z (Cmul z z)))) = Cinv z.
Proof.
  intros Hz. apply Cinv_unique; [| exact Hz].
  rewrite <- Cmul_assoc. apply Cmul_inv_r.
  rewrite !Cis_zero_mul, Hz. reflexivity.
Qed.

(** [la.inv] on z times the identity: singular exactly for z = 0,
    and 1/z times the identity otherwise. *)
Lemma inv_diag4 (z : C) (n : nat) :
  la.inv (diag4 z) n =
    (S n, if Cis_zero z then inl LinAlgError else inr (diag4 (Cinv z))).
Proof.
  unfold la.inv.
  change (nrows (diag4 z)) with 4%nat. change (ncols (diag4 z)) with 4%nat.
  cbn [Nat.eqb negb]. unfold mbind, tick, mret, mraise.
  rewrite det_diag4, !Cis_zero_mul, !orb_diag.
  destruct (Cis_zero z) eqn:Hz; [reflexivity |].
  rewrite adjugate_diag4, (Cinv_cube_over_fourth z Hz). reflexivity.
Qed.

(* ------------------------------------------------------------------ *)
(** ** One pole on four states *)

Lemma padded_C_times_diag4 (c : R) (u : C) :
  matmul (padded_C c) (diag4 u)
  = inr (mk_ndarray 2 4 [[Cmul (RtoC c) u; C0; C0; C0]; [C0; C0; C0; C0]]).
Proof.
  cbv [matmul padded_C diag4 array nrows ncols rows length hd Nat.eqb
       map seq dot column zip_with fold_left nth].
  entrywise ltac:(ring).
Qed.

Lemma row_times_padded_B (x : C) (b : R) :
  matmul (mk_ndarray 2 4 [[x; C0; C0; C0]; [C0; C0; C0; C0]]) (padded_B b)
  = inr (mk_ndarray 2 1 [[Cmul x (RtoC b)]; [C0]]).
Proof.
  cbv [matmul padded_B array nrows ncols rows length hd Nat.eqb
       map seq dot column zip_with fold_left nth].
  entrywise ltac:(ring).
Qed.

Lemma plus_padded_D (x : C) :
  ndadd (mk_ndarray 2 1 [[x]; [C0]]) padded_D
  = inr (mk_ndarray 2 1 [[x]; [C0]]).
Proof.
  cbv [ndadd elementwise bdim rbind padded_D zeros nrows ncols rows
       stretch zip_with map length hd Nat.eqb repeat].
  entrywise ltac:(ring).
Qed.

(** One grid point of the padded system: c (jw - a)^-1 b in the first
    output and 0 in the second, or LinAlgError at the pole. *)
Lemma response_at_padded (a b c wi : R) (n : nat) :
  response_at (padded_A a) (padded_B b) (padded_C c) padded_D wi n =
    (S n,
     if Cis_zero (- a, wi) then inl LinAlgError
     else inr (mk_ndarray 2 1
                 [[Cmul (Cmul (RtoC c) (Cinv (- a, wi))) (RtoC b)]; [C0]])).
Proof.
  unfold response_at. rewrite jwI_minus_padded_A.
  erewrite mbind_inr by reflexivity.
  destruct (Cis_zero (- a, wi)) eqn:Hz.
  - apply mbind_inl. rewrite inv_diag4, Hz. reflexivity.
  - erewrite mbind_inr by (rewrite inv_diag4, Hz; reflexivity).
    rewrite padded_C_times_diag4. erewrite mbind_inr by reflexivity.
    rewrite row_times_padded_B. erewrite mbind_inr by reflexivity.
    unfold lift. rewrite plus_padded_D. reflexivity.
Qed.

(** A sweep whose grid points all succeed with two entries to read. *)
Lemma sweep_total (G_at : R -> M ndarray) (h1 h2 : R -> C) (w : list R) :
  (forall wi n, In wi w ->
     exists G, G_at wi n = (S n, inr G) /\
               getitem G 0 0 = inr (h1 wi) /\ getitem G 1 0 = inr (h2 wi)) ->
  forall H11 H21 n,
    sweep G_at w H11 H21 n
    = ((n + length w)%nat, inr (H11 ++ map h1 w, H21 ++ map h2 w)).
Proof.
  induction w as [| wi w IH]; intros HG H11 H21 n.
  - cbn [sweep map length]. unfold mret.
    rewrite Nat.add_0_r, !app_nil_r. reflexivity.
  - cbn [sweep map length].
    destruct (HG wi n (or_introl eq_refl)) as (G & EG & E0 & E1).
    rewrite (mbind_inr _ _ n (S n) G EG).
    rewrite E0. erewrite mbind_inr by reflexivity.
    rewrite E1. erewrite mbind_inr by reflexivity.
    rewrite IH by (intros v k Hv; apply HG; right; exact Hv).
    replace (S n + length w)%nat with (n + S (length w))%nat by lia.
    rewrite <- !app_assoc. reflexivity.
Qed.

(* ------------------------------------------------------------------ *)
(** ** A one-state system under the literal np.eye(4) *)

Lemma RtoC_m1 : RtoC (-1) = Csub C0 C1.
Proof. c_ring. Qed.

(** The determinant of a 4 by 4 array with x on the diagonal and y
    everywhere else. *)
Lemma det_broadcast4 (x y : C) :
  la.det 4 [[x; y; y; y]; [y; x; y; y]; [y; y; x; y]; [y; y; y; x]]
  = Cmul (Cmul (Csub x y) (Cmul (Csub x y) (Csub x y)))
         (Cadd x (Cadd y (Cadd y y))).
Proof.
  unfold la.det, la.sign, la.drop_nth. simpl. rewrite !RtoC_m1. ring.
Qed.

(** [1j*wi*np.eye(4) - A] for a 1 by 1 A: numpy broadcasts A to every
    entry, and the 4 by 4 result is singular exactly at wi = 0. *)
Lemma jwI_minus_one_state (a wi : R) :
  exists d,
    ndsub (scale (Cmul Ci (RtoC wi)) (eye 4)) (array [[RtoC a]])
      = inr (mk_ndarray 4 4 d) /\
    Cis_zero (la.det 4 d) = Ris_zero wi.
Proof.
  eexists. split; [reflexivity |].
  cbv [array nrows ncols rows scale eye stretch zip_with map seq
       length hd Nat.eqb repeat].
  rewrite !jw_diag, !jw_off, det_broadcast4.
  replace (Cmul _ _) with ((wi ^ 4, 4 * a * wi ^ 3) : C)
    by (apply C_eq; unfold Cmul, Cadd, Csub; simpl; ring).
  destruct (Ris_zero wi) eqn:Hw.
  - apply Ris_zero_true in Hw. subst wi.
    apply Cis_zero_true. simpl. split; ring.
  - apply Ris_zero_false in Hw. apply Cis_zero_false. left.
    cbn [fst]. apply pow_nonzero. exact Hw.
Qed.

(** A one-state A with a C that is not four columns wide, or a B that
    is not four rows high: every grid point raises, after the
    inversion of the broadcast 4 by 4 array has been started. *)
Lemma response_at_one_state_raises
  (a wi : R) (B C D : ndarray) (n : nat) :
  ncols C <> 4%nat \/ nrows B <> 4%nat ->
  response_at (array [[RtoC a]]) B C D wi n =
    (S n, inl (if Ris_zero wi then LinAlgError else ValueError)).
Proof.
  intros Hbad. destruct (jwI_minus_one_state a wi) as (d & Hd & Hz).
  rewrite (response_at_bad_product _ B C D wi n d Hd Hbad), Hz.
  reflexivity.
Qed.

(** C1, as stated, fails.  On A=[[-1]], B=[[1]], C=[[1]], D=[[0]] and
    the grid [1], [1j*wi*np.eye(4) - A] is a 4 by 4 array, its inverse
    is computed, and the product of the 1 by 1 C with it raises numpy's
    ValueError: no value is returned, so none equals 0.5 - 0.5j. *)
Lemma frequency_response_scalar_siso_raises :
  let sysA := array [[RtoC (-1)]] in
  let sysB := array [[C1]] in
  let sysC := array [[C1]] in
  let sysD := array [[C0]] in
  frequency_response sysA sysB sysC sysD [1] 0%nat
    = (1%nat, inl ValueError) /\
  ~ (exists k H21,
        frequency_response sysA sysB sysC sysD [1] 0%nat
          = (k, inr ([(1/2, -(1/2))], H21))).
Proof.
  intros sysA sysB sysC sysD.
  assert (E : frequency_response sysA sysB sysC sysD [1] 0%nat
              = (1%nat, inl ValueError)).
  { unfold frequency_response. cbn [sweep]. apply mbind_inl.
    unfold sysA. rewrite response_at_one_state_raises
      by (left; simpl; lia).
    rewrite (proj2 (Ris_zero_false 1)) by lra. reflexivity. }
  split; [exact E |].
  intros (k & H21 & He). rewrite E in He. discriminate He.
Qed.

(** C1, amended.  The sweep is written for four states and two
    outputs.  On the dynamics x' = -x + u, y = x written in that form
    (A = -I, B and C selecting the first state, D = 0) every grid is
    swept without error, with one inversion per grid point: the first
    output is 1/(jw+1) at each w, a quotient that is never degenerate,
    and 0.5 - 0.5j at w=1; the second output is 0.  On the 1 by 1
    matrices themselves every non-empty grid raises at its first
    point: ValueError from the product with C, or LinAlgError when
    that point is w=0. *)
Theorem frequency_response_first_order_on_four_states :
  let tf := fun wi : R => Cmul C1 (Cinv (Cadd (Cmul Ci (RtoC wi)) C1)) in
  (forall w : list R,
      frequency_response (padded_A (-1)) (padded_B 1) (padded_C 1)
                         padded_D w 0%nat
      = (length w, inr (map tf w, map (fun _ => C0) w))) /\
  (forall wi : R, Cdiv C1 (Cadd (Cmul Ci (RtoC wi)) C1) = Some (tf wi)) /\
  frequency_response (padded_A (-1)) (padded_B 1) (padded_C 1)
                     padded_D [1] 0%nat
    = (1%nat, inr ([(1/2, -(1/2))], [C0])) /\
  (forall (wi : R) (w : list R),
      frequency_response (array [[RtoC (-1)]]) (array [[C1]])
                         (array [[C1]]) (array [[C0]]) (wi :: w) 0%nat
      = (1%nat, inl (if Ris_zero wi then LinAlgError else ValueError))).
Proof.
  intros tf.
  assert (S : forall w : list R,
             frequency_response (padded_A (-1)) (padded_B 1) (padded_C 1)
                                padded_D w 0%nat
             = (length w, inr (map tf w, map (fun _ => C0) w))).
  { intros w. unfold frequency_response.
    rewrite (sweep_total _ tf (fun _ => C0)); [reflexivity |].
    intros wi n _. rewrite response_at_padded.
    rewrite Cis_zero_false by (left; simpl; lra).
    eexists. split; [reflexivity |]. split; [| reflexivity].
    unfold getitem. cbn [nrows ncols rows Nat.ltb Nat.leb andb nth].
    unfold tf. rewrite jw_plus_1.
    replace (- -1) with 1 by lra. change (RtoC 1) with C1.
    f_equal. ring. }
  split; [exact S |]. split; [| split].
  - intros wi. unfold Cdiv, tf. rewrite jw_plus_1.
    rewrite Cis_zero_false by (left; simpl; lra). reflexivity.
  - rewrite S. cbn [length map]. unfold tf. rewrite jw_plus_1.
    replace (Cmul C1 (Cinv (1, 1))) with ((1/2, -(1/2)) : C);
      [reflexivity |].
    apply C_eq; unfold Cmul, Cinv, Cnorm2, C1, RtoC; simpl; field.
  - intros wi w. unfold frequency_response. cbn [sweep].
    apply mbind_inl. apply response_at_one_state_raises.
    left. simpl. lia.
Qed.

(** X13. A one-state system can never be swept.  With A=[[a]] and a C
    that is not four columns wide or a B that is not four rows high
    (so also for B=[[b]], C=[[c]]), every non-empty grid raises at its
    first point w, after one inversion has been started there: numpy
    broadcasts A against np.eye(4), and the call ends in LinAlgError
    when w = 0 (the broadcast array is singular) and in ValueError from
    a matrix product otherwise. *)
Theorem one_state_system_raises
  (a wi : R) (w : list R) (B C D : ndarray) :
  ncols C <> 4%nat \/ nrows B <> 4%nat ->
  frequency_response (array [[RtoC a]]) B C D (wi :: w) 0%nat
  = (1%nat, inl (if Ris_zero wi then LinAlgError else ValueError)).
Proof.
  intros Hbad. unfold frequency_response. cbn [sweep].
  apply mbind_inl. apply response_at_one_state_raises. exact Hbad.
Qed.

Lemma one_state_system_raises_witness :
  (ncols (array [[RtoC 2]]) <> 4%nat \/
   nrows (array [[RtoC 3]]) <> 4%nat) /\
  frequency_response (array [[RtoC (-1)]]) (array [[RtoC 3]])
                     (array [[RtoC 2]]) (array [[RtoC 0]]) [1; 10] 0%nat
  = (1%nat, inl (if Ris_zero 1 then LinAlgError else ValueError)).
Proof.
  assert (H : ncols (array [[RtoC 2]]) <> 4%nat \/
              nrows (array [[RtoC 3]]) <> 4%nat) by (left; simpl; lia).
  split; [exact H |].
  exact (one_state_system_raises (-1) 1 [10] (array [[RtoC 3]])
           (array [[RtoC 2]]) (array [[RtoC 0]]) H).
Defined.

(* ------------------------------------------------------------------ *)
(** ** Four-state systems with fitting shapes *)

(** One grid point of a four-state system whose shapes fit: the
    inversion is run, and the only possible failure is a singular
    jwI - A. *)
Lemma response_at_consistent (A B C D : ndarray) (wi : R) (n : nat) :
  nrows A = 4%nat -> ncols A = 4%nat ->
  nrows B = 4%nat -> ncols C = 4%nat ->
  nrows D = nrows C -> ncols D = ncols B ->
  response_at A B C D wi n = (S n, inl LinAlgError) \/
  exists G, response_at A B C D wi n = (S n, inr G) /\
            nrows G = nrows C /\ ncols G = ncols B.
Proof.
  intros HAr HAc HB HC HDr HDc. unfold response_at.
  destruct (ndsub_shape_4 (Cmul Ci (RtoC wi)) A HAr HAc) as [d Hd].
  rewrite Hd.
  rewrite (mbind_inr _ _ n n (mk_ndarray 4 4 d)) by reflexivity.
  destruct (inv_square_cases (mk_ndarray 4 4 d) n eq_refl)
    as [[_ E] | [_ (X & E & Hr & Hc)]]; cbn [nrows ncols rows] in *.
  - left. apply mbind_inl. exact E.
  - right. rewrite (mbind_inr _ _ n (S n) X E).
    destruct (matmul_fits C X) as [d1 E1]; [congruence |].
    rewrite E1. erewrite mbind_inr by reflexivity.
    destruct (matmul_fits (mk_ndarray (nrows C) (ncols X) d1) B)
      as [d2 E2]; [cbn [ncols]; congruence |].
    rewrite E2. erewrite mbind_inr by reflexivity.
    cbn [nrows ncols].
    destruct (elementwise_same_shape Cadd
                (mk_ndarray (nrows C) (ncols B) d2) D) as [g Hg];
      [cbn [nrows]; symmetry; exact HDr
      | cbn [ncols]; symmetry; exact HDc |].
    unfold ndadd, lift. rewrite Hg. cbn [nrows ncols].
    eexists. split; [reflexivity |]. split; reflexivity.
Qed.


Lemma getitem_row_out_of_range (a : ndarray) (i j : nat) :
  (nrows a <= i)%nat -> getitem a i j = inl IndexError.
Proof.
  intros Hi. unfold getitem.
  rewrite (proj2 (Nat.ltb_ge _ _) Hi). reflexivity.
Qed.




(** X27. A single-output system cannot be swept either: with a C of
    one row (A 4 by 4, B 4 by m, C 1 by 4, D 1 by m) the matrix G of the
    first grid point has one row, and reading [G[1,0]] (or [G[0,0]]
    when there is no input column) raises IndexError, unless that
    point's inversion has already raised LinAlgError. *)
Theorem single_output_sweep_raises
  (A B C D : ndarray) (wi : R) (w : list R) :
  nrows A = 4%nat -> ncols A = 4%nat ->
  nrows B = 4%nat -> ncols C = 4%nat ->
  nrows C = 1%nat -> nrows D = 1%nat -> ncols D = ncols B ->
  frequency_response A B C D (wi :: w) 0%nat = (1%nat, inl LinAlgError) \/
  frequency_response A B C D (wi :: w) 0%nat = (1%nat, inl IndexError).
Proof.
  intros HAr HAc HB HC Hp HDr HDc.
  unfold frequency_response. cbn [sweep].
  destruct (response_at_consistent A B C D wi 0 HAr HAc HB HC)
    as [E | (G & E & Hr & Hc)]; [congruence | exact HDc | |].
  - left. apply mbind_inl. exact E.
  - right. rewrite (mbind_inr _ _ 0%nat 1%nat G E).
    destruct (getitem G 0 0) as [e | g00] eqn:E0.
    + apply mbind_inl. unfold lift. f_equal.
      unfold getitem in E0.
      destruct ((0 <? nrows G)%nat && (0 <? ncols G)%nat);
        congruence.
    + erewrite mbind_inr by reflexivity.
      apply mbind_inl. unfold lift. f_equal.
      apply getitem_row_out_of_range. lia.
Qed.

Lemma single_output_sweep_raises_witness :
  let r := RtoC in
  let sysA := array [[r 0; r 1; r 0; r 0];
                     [r (-1); r (-1); r 1; r 0];
                     [r 0; r 0; r 0; r 1];
                     [r 1; r 0; r (-4); r (-1)]] in
  let sysB := array [[r 0]; [r 1]; [r 0]; [r 0]] in
  let Cx := array [[r 1; r 0; r 0; r 0]] in
  let sysD := zeros 1 1 in
  (nrows sysA = 4%nat /\ ncols sysA = 4%nat /\
   nrows sysB = 4%nat /\ ncols Cx = 4%nat /\
   nrows Cx = 1%nat /\ nrows sysD = 1%nat /\ ncols sysD = ncols sysB) /\
  (frequency_response sysA sysB Cx sysD [1; 10] 0%nat
     = (1%nat, inl LinAlgError) \/
   frequency_response sysA sysB Cx sysD [1; 10] 0%nat
     = (1%nat, inl IndexError)).
Proof.
  intros r sysA sysB Cx sysD.
  split; [repeat split |].
  apply (single_output_sweep_raises sysA sysB Cx sysD 1 [10]);
    reflexivity.
Defined.

(* ------------------------------------------------------------------ *)
(** ** State space against the polynomial route *)

(** X25. The dynamics x' = a x + b u, y = c x, written on the four
    states and two outputs of the sweep, and the polynomial pair
    num=[c*b], den=[1, -a]: on a grid that does not hold the pole
    (a = 0 and w = 0) the first output [H11] of the sweep is the
    response [scipy.signal.freqs] computes, sample by sample, and the
    second output is 0; with the pole as the first grid point the sweep
    raises LinAlgError where the polynomial route returns an inf/NaN
    sample.  (Exact real arithmetic; rounding of doubles is not
    modelled.) *)
Theorem state_space_matches_transfer_function (a b c : R) (w : list R) :
  ((forall wi, In wi w -> a <> 0 \/ wi <> 0) ->
   exists H11 : list C,
     frequency_response (padded_A a) (padded_B b) (padded_C c) padded_D
                        w 0%nat
       = (length w, inr (H11, map (fun _ => C0) w)) /\
     snd (signal.freqs [c * b] [1; - a] w) = map Some H11) /\
  (a = 0 ->
   frequency_response (padded_A a) (padded_B b) (padded_C c) padded_D
                      (0 :: w) 0%nat
     = (1%nat, inl LinAlgError) /\
   hd_error (snd (signal.freqs [c * b] [1; - a] (0 :: w))) = Some None).
Proof.
  split.
  - intros Hw.
    exists (map (fun wi => Cmul (Cmul (RtoC c) (Cinv (- a, wi))) (RtoC b))
                w).
    split.
    + unfold frequency_response.
      rewrite (sweep_total _
                 (fun wi => Cmul (Cmul (RtoC c) (Cinv (- a, wi))) (RtoC b))
                 (fun _ => C0)); [reflexivity |].
      intros wi n Hin. rewrite response_at_padded.
      rewrite Cis_zero_false
        by (destruct (Hw wi Hin); [left | right]; simpl; lra).
      eexists. split; [reflexivity |]. split; reflexivity.
    + unfold signal.freqs. cbn [snd]. rewrite !map_map.
      apply map_ext_in. intros wi Hin.
      rewrite polyval_const, polyval_monic_first_order. unfold Cdiv.
      rewrite Cis_zero_false
        by (destruct (Hw wi Hin); [left | right]; simpl; lra).
      f_equal. generalize (Cinv (- a, wi)). intros u. c_ring.
  - intros Ha. subst a. split.
    + unfold frequency_response. cbn [sweep]. apply mbind_inl.
      rewrite response_at_padded.
      rewrite (proj2 (Cis_zero_true (- 0, 0)))
        by (simpl; split; lra).
      reflexivity.
    + unfold signal.freqs. cbn [snd map hd_error].
      rewrite polyval_const, polyval_monic_first_order. unfold Cdiv.
      rewrite (proj2 (Cis_zero_true (- 0, 0)))
        by (simpl; split; lra).
      reflexivity.
Qed.

Lemma state_space_matches_transfer_function_witness :
  (forall wi, In wi [1; 10] -> -1 <> 0 \/ wi <> 0) /\
  exists H11 : list C,
    frequency_response (padded_A (-1)) (padded_B 1) (padded_C 1) padded_D
                       [1; 10] 0%nat
      = (length [1; 10], inr (H11, map (fun _ => C0) [1; 10])) /\
    snd (signal.freqs [1 * 1] [1; - (-1)] [1; 10]) = map Some H11.
Proof.
  assert (Hw : forall wi, In wi [1; 10] -> -1 <> 0 \/ wi <> 0)
    by (intros wi _; left; lra).
  split; [exact Hw |].
  exact (proj1 (state_space_matches_transfer_function (-1) 1 1 [1; 10])
           Hw).
Defined.
